(** * front-end-packager: a shallow embedding of [src/front-end-packager.js]

    The packager resolves an ordered list of sources (files, URLs, literal
    text), inlines the resources a style sheet refers to, minifies, and writes
    one chunk per source to the destination; in watch mode it rebuilds when a
    watched path changes.

    Modelling choices.
    - A JavaScript string is a [string]; one [ascii] stands for one code unit,
      so the model covers the code units 0..255.  [\s] and [trim] then see the
      white space 9..13, 32 and 160.
    - A Node [Buffer] is a [list byte].
    - A promise is the list of effects performed until it settles, together
      with its settlement ([Ok] for fulfilled, [Err] for rejected).  Promise
      chains in the source are sequential, so [then_] appends the effects.
    - Libraries the packager calls (is-url, is-invalid-path, file-type, is-svg,
      clean-css, javascript-obfuscator, path) are fields of [Collaborators];
      the file system and the network are the oracles of [World].
    - [debug] output is not modelled. *)

From Stdlib Require Import List String Ascii Bool Arith Lia NArith.
From Stdlib Require Import Strings.Byte.
Import ListNotations.
Local Open Scope list_scope.
Local Open Scope string_scope.

(** ** JavaScript strings *)

Module Js.

Definition chr (n : nat) : string := String (ascii_of_nat n) EmptyString.

(** The line feed, the double quote and the single quote. *)
Definition LF : string := chr 10.
Definition dquote : ascii := ascii_of_nat 34.
Definition squote : ascii := ascii_of_nat 39.

(** White space of [\s] and of [String.prototype.trim]. *)
Definition is_ws (c : ascii) : bool :=
  let n := nat_of_ascii c in
  (Nat.leb 9 n && Nat.leb n 13) || Nat.eqb n 32 || Nat.eqb n 160.

(** [.] matches everything but a line terminator. *)
Definition is_dot (c : ascii) : bool :=
  let n := nat_of_ascii c in
  negb (Nat.eqb n 10 || Nat.eqb n 13).

(** The class of the reference pattern: no white space, no quote. *)
Definition is_ref_char (c : ascii) : bool :=
  negb (is_ws c || Ascii.eqb c dquote || Ascii.eqb c squote).

Fixpoint drop (n : nat) (s : string) : string :=
  match n, s with
  | S k, String _ s' => drop k s'
  | _, _ => s
  end.

Definition take (n : nat) (s : string) : string := substring 0 n s.

Fixpoint trim_start (s : string) : string :=
  match s with
  | String c s' => if is_ws c then trim_start s' else s
  | EmptyString => EmptyString
  end.

Fixpoint trim_end (s : string) : string :=
  match s with
  | String c s' =>
      match trim_end s' with
      | EmptyString => if is_ws c then EmptyString else String c EmptyString
      | r => String c r
      end
  | EmptyString => EmptyString
  end.

(** [s.trim()] *)
Definition trim (s : string) : string := trim_end (trim_start s).

(** [s.split('.')]: never empty, the empty string splits into one empty part. *)
Fixpoint split_dot (s : string) : list string :=
  match s with
  | EmptyString => [EmptyString]
  | String c s' =>
      let ps := split_dot s' in
      if Ascii.eqb c "." then EmptyString :: ps
      else match ps with
           | p :: ps' => String c p :: ps'
           | [] => [String c EmptyString]
           end
  end.

(** [parts[parts.length - 1]] and [parts[parts.length - 2]]; the second is
    [undefined] ([None]) when there is one part only. *)
Definition last_part (parts : list string) : string := last parts EmptyString.

Definition before_last (parts : list string) : option string :=
  match rev parts with
  | _ :: p :: _ => Some p
  | _ => None
  end.

(** [s.indexOf(pat)] *)
Fixpoint index_of (pat s : string) (i : nat) : option nat :=
  if prefix pat s then Some i
  else match s with
       | String _ s' => index_of pat s' (S i)
       | EmptyString => None
       end.

(** [/pat/] without anchors, as [RegExp.prototype.test]. *)
Definition contains (pat s : string) : bool :=
  match index_of pat s 0 with Some _ => true | None => false end.

(** GetSubstitution of ECMAScript for a pattern without capture groups:
    [$$], [$&], [$`] and [$'] are expanded, every other [$] stays. *)
Fixpoint get_substitution (matched before after repl : string) : string :=
  match repl with
  | String c r =>
      if Ascii.eqb c "$" then
        match r with
        | String d r' =>
            if Ascii.eqb d "$" then String "$" (get_substitution matched before after r')
            else if Ascii.eqb d "&" then matched ++ get_substitution matched before after r'
            else if Ascii.eqb d "`" then before ++ get_substitution matched before after r'
            else if Ascii.eqb d squote then after ++ get_substitution matched before after r'
            else String c (String d (get_substitution matched before after r'))
        | EmptyString => String c EmptyString
        end
      else String c (get_substitution matched before after r)
  | EmptyString => EmptyString
  end.

(** A replacement text without [$] has nothing to expand. *)
Fixpoint no_dollar (s : string) : bool :=
  match s with
  | String c s' => negb (Ascii.eqb c "$") && no_dollar s'
  | EmptyString => true
  end.

(** [s.replace(pat, repl)] with a string pattern: the first occurrence. *)
Definition replace (s pat repl : string) : string :=
  match index_of pat s 0 with
  | None => s
  | Some i =>
      let before := take i s in
      let after := drop (i + length pat) s in
      before ++ get_substitution pat before after repl ++ after
  end.

(** *** Regular expressions

    The three expressions of the source use literals, optional characters,
    greedy stars of a character class and one capture group; [exec] is a
    backtracking matcher for exactly that fragment, trying the longer
    alternative first as ECMAScript does. *)

Inductive atom : Type :=
| Lit (c : ascii)
| Opt (c : ascii)
| Star (cls : ascii -> bool)
| Open
| Close.

Definition regex := list atom.

Fixpoint lits (s : string) : regex :=
  match s with
  | String c s' => Lit c :: lits s'
  | EmptyString => []
  end.

(** [exec p s n op cap]: match [p] at the head of [s]; [n] is the number of
    characters consumed so far, [op] where the group opened, [cap] the capture.
    The result is the length of the match and the capture, as offsets from
    the start of the match. *)
Fixpoint exec (p : regex) (s : string) (n op : nat) (cap : option (nat * nat))
  : option (nat * option (nat * nat)) :=
  match p with
  | [] => Some (n, cap)
  | Lit c :: p' =>
      match s with
      | String d s' => if Ascii.eqb c d then exec p' s' (S n) op cap else None
      | EmptyString => None
      end
  | Opt c :: p' =>
      match s with
      | String d s' =>
          if Ascii.eqb c d then
            match exec p' s' (S n) op cap with
            | Some r => Some r
            | None => exec p' s n op cap
            end
          else exec p' s n op cap
      | EmptyString => exec p' s n op cap
      end
  | Star cls :: p' =>
      (fix star (s : string) (n : nat) {struct s} :=
         match s with
         | String d s' =>
             if cls d then
               match star s' (S n) with
               | Some r => Some r
               | None => exec p' s n op cap
               end
             else exec p' s n op cap
         | EmptyString => exec p' s n op cap
         end) s n
  | Open :: p' => exec p' s n n cap
  | Close :: p' => exec p' s n op (Some (op, n))
  end.

(** The leftmost match: its index, its length and its capture. *)
Fixpoint search (p : regex) (s : string) (i : nat)
  : option (nat * nat * option (nat * nat)) :=
  match exec p s 0 0 None with
  | Some (len, cap) => Some (i, len, cap)
  | None =>
      match s with
      | String _ s' => search p s' (S i)
      | EmptyString => None
      end
  end.

(** [s.match(/p/g)]: every match, left to right, the search resuming where
    the previous match ended (one further after an empty match).  The empty
    list stands for [null]. *)
Fixpoint match_all (p : regex) (s : string) (skip : nat) : list string :=
  match skip with
  | S k =>
      match s with
      | String _ s' => match_all p s' k
      | EmptyString => []
      end
  | O =>
      match exec p s 0 0 None with
      | Some (len, _) =>
          take len s ::
          match s with
          | String _ s' => match_all p s' (len - 1)
          | EmptyString => []
          end
      | None =>
          match s with
          | String _ s' => match_all p s' 0
          | EmptyString => []
          end
      end
  end.

(** [s.replace(/p/, '')]: the leftmost match is removed. *)
Definition remove_first (p : regex) (s : string) : string :=
  match search p s 0 with
  | Some (i, len, _) => take i s ++ drop (i + len) s
  | None => s
  end.

(** [Buffer.prototype.toString('base64')] *)
Definition base64_alphabet : string :=
  "ABCDEFGHIJKLMNOPQRSTUVWXYZabcdefghijklmnopqrstuvwxyz0123456789+/".

Definition base64_digit (n : N) : ascii :=
  match get (N.to_nat n) base64_alphabet with
  | Some c => c
  | None => "="%char
  end.

Fixpoint base64 (b : list byte) : string :=
  match b with
  | [] => EmptyString
  | [x] =>
      let n := Byte.to_N x in
      String (base64_digit (n / 4))
        (String (base64_digit ((n mod 4) * 16)) "==")
  | [x; y] =>
      let n := Byte.to_N x in
      let m := Byte.to_N y in
      String (base64_digit (n / 4))
        (String (base64_digit ((n mod 4) * 16 + m / 16))
           (String (base64_digit ((m mod 16) * 4)) "="))
  | x :: y :: z :: rest =>
      let n := Byte.to_N x in
      let m := Byte.to_N y in
      let k := Byte.to_N z in
      String (base64_digit (n / 4))
        (String (base64_digit ((n mod 4) * 16 + m / 16))
           (String (base64_digit ((m mod 16) * 4 + k / 64))
              (String (base64_digit (k mod 64)) (base64 rest))))
  end%N.

End Js.

(** ** Promises, effects and the environment *)

Definition Buffer := list byte.

Inductive Error : Type :=
| TypeError
| Failure (msg : string).

Inductive Result (A : Type) : Type :=
| Ok (a : A)
| Err (e : Error).
Arguments Ok {A} a.
Arguments Err {A} e.

(** What one bundling pass does to the outside world, in the order it
    happens. *)
Inductive Event : Type :=
| EvOpen (destination : string)   (* fs.createWriteStream(destination) *)
| EvRead (filepath : string)      (* fs.createReadStream(filepath) *)
| EvGet (url : string)            (* request.get *)
| EvMinifyJs (data : string)      (* JavaScriptObfuscator.obfuscate *)
| EvMinifyCss (data : string)     (* new CleanCss(..).minify *)
| EvWrite (chunk : string)        (* target.write(chunk) *)
| EvEnd                           (* target.end() *)
| EvWatch.                        (* chokidar.watch(sources, ..) *)

Definition Promise (A : Type) : Type := (list Event * Result A)%type.

Definition resolve {A} (a : A) : Promise A := ([], Ok a).
Definition reject {A} (e : Error) : Promise A := ([], Err e).
Definition emit (e : Event) : Promise unit := ([e], Ok tt).

Definition then_ {A B} (m : Promise A) (f : A -> Promise B) : Promise B :=
  match m with
  | (t, Ok a) => let (t', r) := f a in ((t ++ t')%list, r)
  | (t, Err e) => (t, Err e)
  end.

Definition catch_ {A} (m : Promise A) (h : Error -> Promise A) : Promise A :=
  match m with
  | (t, Ok a) => (t, Ok a)
  | (t, Err e) => let (t', r) := h e in ((t ++ t')%list, r)
  end.

Notation "x <- m ;; k" := (then_ m (fun x => k))
  (at level 61, m at next level, right associativity).

(** [Promise.each(list, f)]: one element after the other, stopping at the
    first rejection. *)
Fixpoint each {A} (l : list A) (f : A -> Promise unit) : Promise unit :=
  match l with
  | [] => resolve tt
  | x :: l' => _ <- f x ;; each l' f
  end.

(** [Promise.reduce(list, f, initial)] *)
Fixpoint reduce {A B} (l : list A) (f : B -> A -> Promise B) (acc : B) : Promise B :=
  match l with
  | [] => resolve acc
  | x :: l' => acc' <- f acc x ;; reduce l' f acc'
  end.

(** The result of clean-css: [{ styles, errors }]. *)
Record CssOutput : Type := { styles : string; errors : list string }.

(** The libraries behind the packager.  [JsOptions], [CssOptions] and
    [ReqOptions] are the option objects handed through untouched;
    [obfuscate data o] stands for
    [JavaScriptObfuscator.obfuscate(data, merge(defaults, o || {})).getObfuscatedCode()]
    and [cleanCss data o] for [new CleanCss(merge({}, o || {})).minify(data)],
    either of which may throw. *)
Class Collaborators (JsOptions CssOptions ReqOptions : Type) : Type := {
  isUrl : string -> bool;
  isInvalidPath : string -> bool;
  fileType : Buffer -> option string;        (* the mime of [{ext, mime}], or null *)
  isSvg : string -> bool;
  toString_utf8 : Buffer -> string;
  obfuscate : string -> option JsOptions -> Result string;
  cleanCss : string -> option CssOptions -> Result CssOutput;
  path_dirname : string -> string;
  path_join : string -> string -> string
}.

(** The world a pass reads from: files, the network and [process.env].  It is
    kept apart from the stream the pass writes to, so the model does not cover
    a pass that reads its own destination. *)
Record World (ReqOptions : Type) : Type := {
  fs_read : string -> Result Buffer;
  http_get : string -> option ReqOptions -> Result Buffer;
  NODE_ENV : option string
}.
Arguments fs_read {ReqOptions} w filepath.
Arguments http_get {ReqOptions} w url reqOptions.
Arguments NODE_ENV {ReqOptions} w.

(** A source entry: [typeof(source) !== 'object'] tells a single location
    from a group. *)
Inductive Source : Type :=
| Single (source : string)
| Group (files : list string).

(** The resolved unit built by [processSource]. *)
Record Results : Type := { code : string; minify : bool; ext : string }.

(** The write stream; only its [path] is read by the packager. *)
Record WriteStream : Type := { path : string }.

(** ** Traces *)

(** What a trace leaves in the destination. *)
Fixpoint written (t : list Event) : list string :=
  match t with
  | EvWrite chunk :: t' => chunk :: written t'
  | _ :: t' => written t'
  | [] => []
  end.

Definition output (t : list Event) : string := String.concat EmptyString (written t).

(** What a trace handed to the external minifiers. *)
Fixpoint minified (t : list Event) : list string :=
  match t with
  | EvMinifyJs data :: t' => data :: minified t'
  | EvMinifyCss data :: t' => data :: minified t'
  | _ :: t' => minified t'
  | [] => []
  end.

(** File reads and network fetches. *)
Definition is_fetch (e : Event) : bool :=
  match e with
  | EvRead _ | EvGet _ => true
  | _ => false
  end.

Definition is_minifier (e : Event) : bool :=
  match e with
  | EvMinifyJs _ | EvMinifyCss _ => true
  | _ => false
  end.

(** ** The packager *)

(** The global pattern of [encodeExternalResources], its parts spaced out and
    Q written for the escaped double quote:
    [url  \s*  \(  (  \s*  \'?  Q?  [^\sQ\']*  \'?  Q?  \s*  )  \)]. *)
Definition url_re_g : Js.regex :=
  (Js.lits "url" ++
   [Js.Star Js.is_ws; Js.Lit "("; Js.Open; Js.Star Js.is_ws; Js.Opt Js.squote;
    Js.Opt Js.dquote; Js.Star Js.is_ref_char; Js.Opt Js.squote; Js.Opt Js.dquote;
    Js.Star Js.is_ws; Js.Close; Js.Lit ")"])%list.

(** The pattern applied to one match, capturing the reference:
    [url  \s*  \(  \s*  \'?  Q?  (  [^\sQ\']*  )  \'?  Q?  \s*  \)]. *)
Definition url_re : Js.regex :=
  (Js.lits "url" ++
   [Js.Star Js.is_ws; Js.Lit "("; Js.Star Js.is_ws; Js.Opt Js.squote;
    Js.Opt Js.dquote; Js.Open; Js.Star Js.is_ref_char; Js.Close; Js.Opt Js.squote;
    Js.Opt Js.dquote; Js.Star Js.is_ws; Js.Lit ")"])%list.

(** The pattern of [cleanseResults]:
    [\/\/\# sourceMappingURL\=  .*  \.map  \s*]. *)
Definition source_map_re : Js.regex :=
  (Js.lits "//# sourceMappingURL=" ++ [Js.Star Js.is_dot] ++ Js.lits ".map" ++
   [Js.Star Js.is_ws])%list.

Definition wrapInComment (type code : string) : string :=
  if (type =? "js") || (type =? "css")
  then "/*!" ++ Js.LF ++ code ++ Js.LF ++ "*/"
  else "<!--" ++ Js.LF ++ code ++ Js.LF ++ "-->".

Definition cleanseResults (results : Results) : Results :=
  {| code := Js.trim (Js.remove_first source_map_re (code results));
     minify := minify results;
     ext := ext results |}.

Section Packager.

Context {JsOptions CssOptions ReqOptions : Type}.
Context {libs : Collaborators JsOptions CssOptions ReqOptions}.
Variable world : World ReqOptions.

(** The recognised options; [None] for [js] and [css] is [undefined]. *)
Record Options : Type := {
  opt_minify : bool;
  opt_watch : bool;
  opt_js : option JsOptions;
  opt_css : option CssOptions
}.

Definition downloadFile (url : string) (reqOptions : option ReqOptions) : Promise Buffer :=
  ([EvGet url], http_get world url reqOptions).

Definition readFile (filepath : string) : Promise Buffer :=
  ([EvRead filepath], fs_read world filepath).

Definition getFile (source : string) (reqOptions : option ReqOptions) : Promise Buffer :=
  if isUrl source then downloadFile source reqOptions else readFile source.

Definition minifyCss (data : string) (options : option CssOptions) : Promise string :=
  ([EvMinifyCss data],
   match cleanCss data options with
   | Ok result =>
       match errors result with
       | e :: _ => Err (Failure e)
       | [] => Ok (styles result)
       end
   | Err e => Err e
   end).

Definition minifyJs (data : string) (options : option JsOptions) : Promise string :=
  ([EvMinifyJs data], obfuscate data options).

Definition attemptMinify (type code : string) (options : Options) : Promise string :=
  let _min :=
    if type =? "js" then minifyJs code (opt_js options)
    else if type =? "css" then minifyCss code (opt_css options)
    else resolve code in
  catch_ _min (fun _ => resolve code).

Definition parseFile (source : string) (target : WriteStream)
    (reqOptions : option ReqOptions) : Promise string :=
  if negb (isUrl source) && isInvalidPath source then
    let parts := Js.split_dot (path target) in
    resolve (wrapInComment (Js.last_part parts) source)
  else
    catch_
      (buffer <- getFile source reqOptions ;; resolve (toString_utf8 buffer))
      (fun _ =>
         let parts := Js.split_dot (path target) in
         resolve (wrapInComment (Js.last_part parts) source)).

(** [parts[parts.length - 2] !== 'min'] *)
Definition not_min (parts : list string) : bool :=
  match Js.before_last parts with
  | Some p => negb (p =? "min")
  | None => true
  end.

Definition processSource (source : Source) (target : WriteStream)
    (reqOptions : option ReqOptions) : Promise Results :=
  match source with
  | Single source =>
      code <- parseFile source target reqOptions ;;
      let parts := Js.split_dot source in
      resolve {| code := code;
                 minify := negb (isInvalidPath source) && not_min parts;
                 ext := Js.last_part parts |}
  | Group files =>
      code <- reduce files
                (fun code file =>
                   results <- parseFile file target reqOptions ;;
                   resolve (code ++ Js.LF ++ results))
                EmptyString ;;
      let parts := Js.split_dot (path target) in
      resolve {| code := code;
                 minify := not_min parts;
                 ext := Js.last_part parts |}
  end.

(** *** Resource inlining

    [code] is a variable of the enclosing function that [replace] assigns to;
    the model threads it through the matches and hands back its value at the
    moment the loop settles, next to the settlement. *)

(** The media type found by [replace]: file-type first, then is-svg. *)
Definition sniff (file : Buffer) : option string :=
  match fileType file with
  | Some mime => Some mime
  | None => if isSvg (toString_utf8 file) then Some "image/svg+xml" else None
  end.

Definition data_uri (mime : string) (file : Buffer) : string :=
  "url('" ++ "data:" ++ mime ++ ";charset=utf-8;" ++ "base64," ++ Js.base64 file ++ "')".

(** The inner function [replace]: reading [type.mime] of a missing type
    throws. *)
Definition replace (code match_ : string) (file : Buffer) : Result string :=
  match sniff file with
  | Some mime => Ok (Js.replace code match_ (data_uri mime file))
  | None => Err TypeError
  end.

Definition is_data (url : string) : bool := prefix "data:" url.
Definition is_http (url : string) : bool := prefix "http://" url || prefix "https://" url.

(** Where a reference that is neither a data URI nor remote is read from.
    [path.dirname] asserts that its argument is a string, so a group entry
    throws before anything is read. *)
Definition referenced (source : Source) (url : string) : Promise Buffer :=
  if is_http url then downloadFile url None
  else match source with
       | Single source => readFile (path_join (path_dirname source) url)
       | Group _ => reject TypeError
       end.

(** The body of the [Promise.each] callback for one match. *)
Definition inline_match (source : Source) (match_ code : string)
  : list Event * (string * Result unit) :=
  match Js.search url_re match_ 0 with
  | Some (i, _, Some (from, to)) =>
      let url := Js.trim (substring (i + from) (to - from) match_) in
      if is_data url then ([], (code, Ok tt))
      else
        match referenced source url with
        | (t, Ok file) =>
            match replace code match_ file with
            | Ok code' => (t, (code', Ok tt))
            | Err e => (t, (code, Err e))
            end
        | (t, Err e) => (t, (code, Err e))
        end
  | _ => ([], (code, Err TypeError))
  end.

Fixpoint each_match (source : Source) (matches : list string) (code : string)
  : list Event * (string * Result unit) :=
  match matches with
  | [] => ([], (code, Ok tt))
  | match_ :: rest =>
      match inline_match source match_ code with
      | (t, (code', Ok _)) =>
          let '(t', r) := each_match source rest code' in ((t ++ t')%list, r)
      | (t, (code', Err e)) => (t, (code', Err e))
      end
  end.

Definition encodeExternalResources (code : string) (source : Source) : Promise string :=
  match Js.match_all url_re_g code 0 with
  | [] => resolve code
  | matches =>
      match each_match source matches code with
      | (t, (code', Ok _)) => (t, Ok code')
      | (t, (code', Err _)) => (t, Ok code')
      end
  end.

(** *** The bundling pass *)

(** [options.minify || (NODE_ENV is set and matches /production/)] *)
Definition isProd (options : Options) : bool :=
  opt_minify options ||
  match NODE_ENV world with
  | Some v => Js.contains "production" v
  | None => false
  end.

(** The callback of [loopFiles] for one source is a chain of three [then]
    callbacks: [prepare] resolves, cleanses and inlines, [dispatch] decides on
    minification, and the last one writes. *)
Definition prepare (target : WriteStream) (reqOptions : option ReqOptions)
    (source : Source) : Promise Results :=
  results <- processSource source target reqOptions ;;
  let results := cleanseResults results in
  if ext results =? "js" then resolve results
  else
    code <- encodeExternalResources (code results) source ;;
    resolve {| code := code; minify := minify results; ext := ext results |}.

Definition dispatch (options : Options) (results : Results) : Promise string :=
  if negb (isProd options) || (isProd options && negb (minify results))
  then resolve (code results)
  else attemptMinify (ext results) (code results) options.

Definition loopFile (target : WriteStream) (options : Options)
    (reqOptions : option ReqOptions) (source : Source) : Promise unit :=
  results <- prepare target reqOptions source ;;
  results <- dispatch options results ;;
  emit (EvWrite (results ++ Js.LF)).

Definition loopFiles (sources : list Source) (target : WriteStream)
    (options : Options) (reqOptions : option ReqOptions) : Promise unit :=
  each sources (loopFile target options reqOptions).

Definition no_options : Options :=
  {| opt_minify := false; opt_watch := false; opt_js := None; opt_css := None |}.

(** [if(!options){ options = {}; }] *)
Definition or_default (options : option Options) : Options :=
  match options with
  | Some o => o
  | None => no_options
  end.

(** [watch] as [bundle] sees it: the watcher is installed and the promise
    fulfils; what the watcher does afterwards is the subject of [Watch]. *)
Definition watch (sources : list Source) (destination : string)
    (options : Options) (reqOptions : option ReqOptions) : Promise unit :=
  emit EvWatch.

Definition bundle (sources : list Source) (destination : string)
    (options : option Options) (reqOptions : option ReqOptions) : Promise unit :=
  let options := or_default options in
  let target := {| path := destination |} in
  _ <- emit (EvOpen destination) ;;
  _ <- loopFiles sources target options reqOptions ;;
  _ <- emit EvEnd ;;
  if negb (opt_watch options) then resolve tt
  else watch sources destination options reqOptions.

(** The text a source degrades to when it cannot be resolved: the two
    [wrapInComment] calls of [parseFile]. *)
Definition fallback (target : WriteStream) (source : string) : string :=
  wrapInComment (Js.last_part (Js.split_dot (path target))) source.

(** The callback [processSource] hands to [Promise.reduce], named for the
    statements about groups. *)
Definition join_step (target : WriteStream) (reqOptions : option ReqOptions)
    (code file : string) : Promise string :=
  results <- parseFile file target reqOptions ;;
  resolve (code ++ Js.LF ++ results).

(** The part of a pass's trace that belongs to one entry: effects, then the
    write of the entry's text and a line feed. *)
Definition segment (seg : list Event * string) : list Event :=
  (fst seg ++ [EvWrite (snd seg ++ Js.LF)])%list.

End Packager.

Arguments Options : clear implicits.

(** ** A concrete environment

    A flat directory with two style sheets, two scripts and one image, a
    network that is down, and stand-ins for the libraries.  It is used to run
    the packager on explicit inputs. *)

Module Fixture.

Definition png : Buffer := [x89; x50; x4e; x47; x0d; x0a; x1a; x0a]%byte.

Definition is_png (b : Buffer) : bool :=
  match b with
  | x89 :: x50 :: x4e :: x47 :: _ => true
  | _ => false
  end%byte.

Definition file (s : string) : Result Buffer := Ok (list_byte_of_string s).

Definition has_any (chars : list string) (s : string) : bool :=
  existsb (fun c => Js.contains c s) chars.

(** The obfuscator stand-in takes one option: [Some true] asks for a separate
    source map, whose reference javascript-obfuscator appends to its answer;
    [Some false] makes it throw. *)
#[export] Instance libs : Collaborators bool unit unit := {|
  isUrl s := prefix "http://" s || prefix "https://" s;
  isInvalidPath s := has_any ["<"; ">"; "*"; "?"; "|"] s;
  fileType b := if is_png b then Some "image/png" else None;
  isSvg s := prefix "<svg" s;
  toString_utf8 := string_of_list_byte;
  obfuscate data o :=
    match o with
    | Some true => Ok ("var _0x1=[];" ++ data ++ Js.LF ++ "//# sourceMappingURL=out.js.map")
    | Some false => Err (Failure "Unexpected token")
    | None => Ok ("var _0x1=[];" ++ data)
    end;
  cleanCss data _ := Ok {| styles := Js.trim data; errors := [] |};
  path_dirname _ := ".";
  path_join _ url := url
|}.

Definition world : World unit := {|
  fs_read p :=
    if p =? "a.png" then Ok png
    else if p =? "b.png" then Ok (png ++ [x00]%byte)%list
    else if p =? "quoted.css" then file "a{background:url('a.png')} b{background:url('b.png')}"
    else if p =? "broken.css" then file "a{background:url('a.png')} b{background:url('gone.png')}"
    else if p =? "compact.css" then file ".a{background:url(a.png)}.b{background:url(b.png)}"
    else if p =? "nested.css" then file "a{background:url(data:url(b.png))} b{background:url(b.png)}"
    else if p =? "a.js" then file ("var a = 1;" ++ Js.LF ++ "//# sourceMappingURL=a.js.map" ++ Js.LF)
    else if p =? "b.js" then file ("var b = 2;" ++ Js.LF ++ "//# sourceMappingURL=b.js.map" ++ Js.LF)
    else Err (Failure "ENOENT");
  http_get _ _ := Err (Failure "ECONNREFUSED");
  NODE_ENV := None
|}.

Definition minifying : Options bool unit :=
  {| opt_minify := true; opt_watch := false; opt_js := Some true; opt_css := None |}.

Definition failing : Options bool unit :=
  {| opt_minify := true; opt_watch := false; opt_js := Some false; opt_css := None |}.

Definition plain : Options bool unit :=
  {| opt_minify := false; opt_watch := false; opt_js := None; opt_css := None |}.

End Fixture.

(** ** Watch mode

    [watch] creates a gate ([new Throttle(1)]) and a watcher whose every event
    calls [_bundle], which asks the gate to run a callback that empties the
    gate's queue and calls [bundle].  [bundle] in turn calls [watch] again once
    its pass has been written, so every completed pass adds a watcher with a
    gate of its own.

    The gate is the generic-throttle library: it admits callbacks up to its
    limit and queues the others; [clear] empties the queue.  The callback the
    source passes has the [(resolve, reject)] signature of a promise executor
    and calls neither; it returns the promise of [bundle].  The model takes
    the release discipline of the gate as a parameter, so that a result can be
    stated for a gate that waits for [resolve] as well as for one that waits
    for the returned promise. *)

Module Watch.

Inductive release : Type :=
| OnResolve    (* the slot is freed when the callback calls resolve or reject *)
| OnReturn.    (* the slot is freed when the promise the callback returns settles *)

(** A gate: callbacks admitted and not released, callbacks queued. *)
Record Gate : Type := { running : nat; waiting : nat }.

Definition limit : nat := 1.

(** A watch session: the gates, oldest first, each with its watcher; the
    passes in flight, each with the gate that admitted it ([None] for the
    pass [bundle] runs before any watcher exists); the passes started. *)
Record Session : Type := {
  gates : list Gate;
  passes : list (option nat);
  started : nat
}.

Inductive Signal : Type :=
| Change              (* add, change, unlink, addDir or unlinkDir *)
| Done (k : nat).     (* the k-th pass in flight has written its last entry *)

(** [bundle(sources, destination, {watch: true})] has just been called. *)
Definition init : Session := {| gates := []; passes := [None]; started := 1 |}.

(** [throttle.clear()] *)
Definition clear (g : Gate) : Gate := {| running := running g; waiting := 0 |}.

(** The callback [_bundle] hands to the gate of watcher [i]: it clears the
    queue and calls [bundle], which starts a pass. *)
Definition callback (i : nat) (g : Gate) : Gate * list (option nat) :=
  (clear g, [Some i]).

(** [throttle.acquire(callback)]: the callback runs at once when a slot is
    free and is queued otherwise. *)
Definition acquire (i : nat) (g : Gate) : Gate * list (option nat) :=
  if Nat.ltb (running g) limit
  then callback i {| running := S (running g); waiting := waiting g |}
  else ({| running := running g; waiting := S (waiting g) |}, []).

(** The handler of watcher [i] for each of its five events. *)
Definition _bundle (i : nat) (g : Gate) : Gate * list (option nat) := acquire i g.

(** One file-system event reaches every watcher. *)
Fixpoint deliver (i : nat) (gs : list Gate) : list Gate * list (option nat) :=
  match gs with
  | [] => ([], [])
  | g :: gs' =>
      let (g', ps) := _bundle i g in
      let (gs'', ps') := deliver (S i) gs' in
      (g' :: gs'', (ps ++ ps')%list)
  end.

(** The slot of gate [i] is freed: a queued callback, if any, runs. *)
Definition free (i : nat) (g : Gate) : Gate * list (option nat) :=
  match waiting g with
  | S w => callback i {| running := running g; waiting := w |}
  | O => ({| running := pred (running g); waiting := 0 |}, [])
  end.

Fixpoint free_at (i k : nat) (gs : list Gate) : list Gate * list (option nat) :=
  match gs with
  | [] => ([], [])
  | g :: gs' =>
      match k with
      | O => let (g', ps) := free i g in (g' :: gs', ps)
      | S k' => let (gs'', ps) := free_at i k' gs' in (g :: gs'', ps)
      end
  end.

Fixpoint remove_nth {A} (k : nat) (l : list A) : list A :=
  match l, k with
  | [], _ => []
  | _ :: l', O => l'
  | x :: l', S k' => x :: remove_nth k' l'
  end.

Definition step (r : release) (s : Session) (e : Signal) : Session :=
  match e with
  | Change =>
      let (gs, ps) := deliver 0 (gates s) in
      {| gates := gs;
         passes := (passes s ++ ps)%list;
         started := started s + List.length ps |}
  | Done k =>
      match nth_error (passes s) k with
      | None => s
      | Some owner =>
          (* target.end(); options.watch holds, so watch() runs again *)
          let gs := (gates s ++ [{| running := 0; waiting := 0 |}])%list in
          let rest := remove_nth k (passes s) in
          match r, owner with
          | OnReturn, Some i =>
              let (gs', ps) := free_at i i gs in
              {| gates := gs';
                 passes := (rest ++ ps)%list;
                 started := started s + List.length ps |}
          | _, _ => {| gates := gs; passes := rest; started := started s |}
          end
      end
  end.

Definition run (r : release) (s : Session) (es : list Signal) : Session :=
  fold_left (step r) es s.

Definition in_flight (s : Session) : nat := List.length (passes s).

(** A gate with no slot left. *)
Definition busy (g : Gate) : Prop := limit <= running g.

(** What holds of a session whose gates are released by [resolve] only:
    either one pass is in flight and no gate has a slot left, or no pass is in
    flight and the newest gate alone is free. *)
Definition settled (s : Session) : Prop :=
  ((exists owner, passes s = [owner]) /\ Forall busy (gates s)) \/
  (passes s = [] /\
   exists gs g, gates s = (gs ++ [g])%list /\ Forall busy gs /\ running g = 0).

End Watch.

(** ** A second concrete environment

    The same directory with a network that answers for one script, a style
    minifier that reports a warning as an error next to its output, and a
    process started with [NODE_ENV=preproduction]. *)

Module Online.

Definition libs : Collaborators bool unit unit := {|
  isUrl := isUrl (Collaborators := Fixture.libs);
  isInvalidPath := isInvalidPath (Collaborators := Fixture.libs);
  fileType := fileType (Collaborators := Fixture.libs);
  isSvg := isSvg (Collaborators := Fixture.libs);
  toString_utf8 := toString_utf8 (Collaborators := Fixture.libs);
  obfuscate := obfuscate (Collaborators := Fixture.libs);
  cleanCss data _ := Ok {| styles := Js.trim data; errors := ["Ignoring local @import"] |};
  path_dirname := path_dirname (Collaborators := Fixture.libs);
  path_join := path_join (Collaborators := Fixture.libs)
|}.

Definition world : World unit := {|
  fs_read := fs_read Fixture.world;
  http_get url _ :=
    if url =? "http://x.org/lib.js?v=2" then Fixture.file "var lib = 0;"
    else Err (Failure "ECONNREFUSED");
  NODE_ENV := Some "preproduction"
|}.

End Online.

(** ** Facts about promises and traces *)

Lemma written_app (t t' : list Event) :
  written (t ++ t') = (written t ++ written t')%list.
Proof.
  induction t as [|e t IH]; simpl; [reflexivity|].
  destruct e; simpl; rewrite ?IH; reflexivity.
Qed.

Lemma fetches_written (t : list Event) :
  forallb is_fetch t = true -> written t = [].
Proof.
  induction t as [|e t IH]; [reflexivity|].
  simpl. destruct e; simpl; try discriminate; exact IH.
Qed.

Lemma fetches_minified (t : list Event) :
  forallb is_fetch t = true -> minified t = [].
Proof.
  induction t as [|e t IH]; [reflexivity|].
  simpl. destruct e; simpl; try discriminate; exact IH.
Qed.

Lemma minifier_written (t : list Event) :
  forallb is_minifier t = true -> written t = [].
Proof.
  induction t as [|e t IH]; [reflexivity|].
  simpl. destruct e; simpl; try discriminate; exact IH.
Qed.

Lemma then_ok {A B} (m : Promise A) (f : A -> Promise B) t a t' r :
  m = (t, Ok a) -> f a = (t', r) -> then_ m f = ((t ++ t')%list, r).
Proof. intros -> Hf. unfold then_. rewrite Hf. reflexivity. Qed.

Lemma string_app_assoc (a b c : string) : (a ++ b) ++ c = a ++ b ++ c.
Proof. induction a as [|x a IH]; simpl; [reflexivity|now rewrite IH]. Qed.

Lemma string_app_nil_r (a : string) : a ++ EmptyString = a.
Proof. induction a as [|x a IH]; simpl; [reflexivity|now rewrite IH]. Qed.

Lemma concat_prefixed (texts : list string) :
  String.concat EmptyString (map (fun text => Js.LF ++ text) texts) =
  match texts with
  | [] => EmptyString
  | _ => Js.LF ++ String.concat Js.LF texts
  end.
Proof.
  induction texts as [|a rest IH]; [reflexivity|].
  cbn [map String.concat]. rewrite IH. destruct rest as [|b rest]; [reflexivity|].
  cbn [map]. rewrite !string_app_assoc. reflexivity.
Qed.

(** *** Trimming *)

Lemma trim_end_idem (s : string) : Js.trim_end (Js.trim_end s) = Js.trim_end s.
Proof.
  induction s as [|c s IH]; [reflexivity|].
  simpl. destruct (Js.trim_end s) as [|d r] eqn:Hr.
  - destruct (Js.is_ws c) eqn:Hc; [reflexivity|]. simpl. now rewrite Hc.
  - simpl. simpl in IH. destruct (Js.trim_end r) as [|d' r'] eqn:Hr'.
    + destruct (Js.is_ws d); [discriminate|]. injection IH as <-. reflexivity.
    + now rewrite IH.
Qed.

Lemma trim_start_head (s : string) :
  match Js.trim_start s with
  | String c _ => Js.is_ws c = false
  | EmptyString => True
  end.
Proof.
  induction s as [|c s IH]; [exact I|].
  simpl. destruct (Js.is_ws c) eqn:Hc; [exact IH|exact Hc].
Qed.

Lemma trim_end_head (s : string) :
  match s with
  | String c _ => Js.is_ws c = false
  | EmptyString => True
  end ->
  Js.trim_start (Js.trim_end s) = Js.trim_end s.
Proof.
  destruct s as [|c s]; [reflexivity|]. intros Hc.
  cbn [Js.trim_end]. destruct (Js.trim_end s); rewrite ?Hc;
    cbn [Js.trim_start]; now rewrite Hc.
Qed.

(** [trim] leaves nothing for a second [trim] to remove. *)
Lemma trim_idem (s : string) : Js.trim (Js.trim s) = Js.trim s.
Proof.
  unfold Js.trim.
  rewrite (trim_end_head _ (trim_start_head s)). apply trim_end_idem.
Qed.

(** *** Searching *)

Lemma search_shift p s :
  forall i,
  Js.search p s (S i) =
  match Js.search p s i with
  | Some (j, len, cap) => Some (S j, len, cap)
  | None => None
  end.
Proof.
  induction s as [|c s IH]; intros i; simpl.
  - destruct (Js.exec p EmptyString 0 0 None) as [[len cap]|]; reflexivity.
  - destruct (Js.exec p (String c s) 0 0 None) as [[len cap]|]; [reflexivity|].
    apply IH.
Qed.

(** The leading line feed of a group's text is outside every source map
    reference and is removed by the trim that follows. *)
Lemma cleanse_leading_LF text :
  Js.trim (Js.remove_first source_map_re (Js.LF ++ text)) =
  Js.trim (Js.remove_first source_map_re text).
Proof.
  unfold Js.remove_first.
  change (Js.LF ++ text) with (String (ascii_of_nat 10) text).
  assert (Hs : Js.search source_map_re (String (ascii_of_nat 10) text) 0 =
               Js.search source_map_re text 1) by reflexivity.
  rewrite Hs, search_shift.
  destruct (Js.search source_map_re text 0) as [[[i len] cap]|]; reflexivity.
Qed.

(** *** Replacing *)

Lemma get_substitution_plain matched before after repl :
  Js.no_dollar repl = true ->
  Js.get_substitution matched before after repl = repl.
Proof.
  induction repl as [|c r IH]; [reflexivity|].
  cbn [Js.no_dollar Js.get_substitution]. intros H.
  apply andb_prop in H as [Hc Hr].
  destruct (Ascii.eqb c "$"); [discriminate|]. now rewrite IH.
Qed.

Lemma no_dollar_app (a b : string) :
  Js.no_dollar (a ++ b) = Js.no_dollar a && Js.no_dollar b.
Proof.
  induction a as [|c a IH]; [reflexivity|].
  cbn [append Js.no_dollar]. now rewrite IH, andb_assoc.
Qed.

Lemma take_app (pre rest : string) : Js.take (String.length pre) (pre ++ rest) = pre.
Proof.
  unfold Js.take. induction pre as [|c pre IH]; cbn [String.length append substring].
  - now destruct rest.
  - now rewrite IH.
Qed.

Lemma drop_app (pre rest : string) : Js.drop (String.length pre) (pre ++ rest) = rest.
Proof.
  induction pre as [|c pre IH]; cbn [String.length append Js.drop].
  - now destruct rest.
  - exact IH.
Qed.

Lemma string_length_app (a b : string) :
  String.length (a ++ b) = String.length a + String.length b.
Proof. induction a as [|c a IH]; cbn [String.length append]; [reflexivity|now rewrite IH]. Qed.

(** Replacing a text at its first occurrence by a text without [$]. *)
Lemma replace_first_occurrence (pre pat post repl : string) :
  Js.index_of pat (pre ++ pat ++ post) 0 = Some (String.length pre) ->
  Js.no_dollar repl = true ->
  Js.replace (pre ++ pat ++ post) pat repl = pre ++ repl ++ post.
Proof.
  intros Hi Hr. unfold Js.replace. rewrite Hi, take_app.
  rewrite (get_substitution_plain _ _ _ _ Hr).
  rewrite <- string_length_app, <- (string_app_assoc pre pat post), drop_app.
  reflexivity.
Qed.

Lemma base64_digit_plain (n : N) : Ascii.eqb (Js.base64_digit n) "$" = false.
Proof.
  unfold Js.base64_digit.
  generalize (N.to_nat n). intros k.
  do 64 (destruct k as [|k]; [reflexivity|]).
  reflexivity.
Qed.

(** The base64 alphabet has no [$]. *)
Lemma base64_plain (b : list byte) : Js.no_dollar (Js.base64 b) = true.
Proof.
  assert (H : forall n (b : list byte), List.length b <= n -> Js.no_dollar (Js.base64 b) = true).
  { induction n as [|n IH]; intros [|x [|y [|z rest]]] Hlen;
      cbn [List.length] in Hlen; try lia; cbn [Js.base64 Js.no_dollar];
      rewrite ?base64_digit_plain; try reflexivity.
    cbn [negb andb]. apply IH. lia. }
  apply (H (List.length b)). lia.
Qed.

(** ** Facts about the packager *)

Section PackagerFacts.

Context {JsOptions CssOptions ReqOptions : Type}.
Context {libs : Collaborators JsOptions CssOptions ReqOptions}.
Variable world : World ReqOptions.

Lemma parseFile_literal source target reqOptions :
  isUrl source = false -> isInvalidPath source = true ->
  parseFile world source target reqOptions = ([], Ok (fallback target source)).
Proof.
  intros Hu Hp. unfold parseFile. rewrite Hu, Hp. reflexivity.
Qed.

Lemma parseFile_url source target reqOptions :
  isUrl source = true ->
  parseFile world source target reqOptions =
  ([EvGet source],
   match http_get world source reqOptions with
   | Ok buffer => Ok (toString_utf8 buffer)
   | Err _ => Ok (fallback target source)
   end).
Proof.
  intros Hu. unfold parseFile, getFile, downloadFile. rewrite Hu. simpl.
  destruct (http_get world source reqOptions); reflexivity.
Qed.

Lemma parseFile_path source target reqOptions :
  isUrl source = false -> isInvalidPath source = false ->
  parseFile world source target reqOptions =
  ([EvRead source],
   match fs_read world source with
   | Ok buffer => Ok (toString_utf8 buffer)
   | Err _ => Ok (fallback target source)
   end).
Proof.
  intros Hu Hp. unfold parseFile, getFile, readFile. rewrite Hu, Hp. simpl.
  destruct (fs_read world source); reflexivity.
Qed.

(** Resolution of one location never rejects; it reads or fetches at most. *)
Lemma parseFile_fulfils source target reqOptions :
  exists t text,
    parseFile world source target reqOptions = (t, Ok text) /\
    forallb is_fetch t = true.
Proof.
  destruct (isUrl source) eqn:Hu.
  - rewrite (parseFile_url _ _ _ Hu).
    destruct (http_get world source reqOptions); eauto.
  - destruct (isInvalidPath source) eqn:Hp.
    + rewrite (parseFile_literal _ _ _ Hu Hp). eauto.
    + rewrite (parseFile_path _ _ _ Hu Hp).
      destruct (fs_read world source); eauto.
Qed.

(** Resolution depends on the destination through its last part only. *)
Lemma parseFile_ext source t1 t2 reqOptions :
  Js.last_part (Js.split_dot (path t1)) = Js.last_part (Js.split_dot (path t2)) ->
  parseFile world source t1 reqOptions = parseFile world source t2 reqOptions.
Proof.
  intros He. unfold parseFile. now rewrite He.
Qed.

Lemma reduce_members files target reqOptions :
  forall acc,
  exists texts,
    Forall2 (fun file text => snd (parseFile world file target reqOptions) = Ok text)
      files texts /\
    reduce files (join_step world target reqOptions) acc =
    (flat_map (fun file => fst (parseFile world file target reqOptions)) files,
     Ok (acc ++ String.concat EmptyString (map (fun text => Js.LF ++ text) texts))).
Proof.
  induction files as [|file files IH]; intros acc.
  - exists []. split; [constructor|]. simpl. now rewrite string_app_nil_r.
  - destruct (parseFile_fulfils file target reqOptions) as (t & text & Hp & _).
    destruct (IH (acc ++ Js.LF ++ text)) as (texts & Hall & Hred).
    exists (text :: texts). split.
    + constructor; [now rewrite Hp|exact Hall].
    + simpl reduce. unfold join_step at 1.
      erewrite then_ok; [|erewrite then_ok; [reflexivity|exact Hp|reflexivity]|exact Hred].
      simpl flat_map. rewrite Hp. simpl fst. rewrite app_nil_r.
      f_equal. f_equal.
      change (String.concat EmptyString (map (fun text0 => Js.LF ++ text0) (text :: texts)))
        with (String.concat EmptyString ((Js.LF ++ text) :: map (fun text0 => Js.LF ++ text0) texts)).
      destruct texts as [|text' texts].
      * simpl. now rewrite !string_app_nil_r.
      * cbn [map String.concat].
        rewrite !string_app_assoc. reflexivity.
Qed.

Lemma members_fetch files target reqOptions :
  forallb is_fetch
    (flat_map (fun file => fst (parseFile world file target reqOptions)) files) = true.
Proof.
  induction files as [|file files IH]; [reflexivity|].
  simpl. rewrite forallb_app, IH.
  destruct (parseFile_fulfils file target reqOptions) as (t & text & Hp & Hq).
  rewrite Hp. simpl. now rewrite Hq.
Qed.

(** The resolved unit of a group. *)
Lemma processSource_group files target reqOptions :
  exists texts,
    Forall2 (fun file text => snd (parseFile world file target reqOptions) = Ok text)
      files texts /\
    processSource world (Group files) target reqOptions =
      (flat_map (fun file => fst (parseFile world file target reqOptions)) files,
       Ok {| code := String.concat EmptyString (map (fun text => Js.LF ++ text) texts);
             minify := not_min (Js.split_dot (path target));
             ext := Js.last_part (Js.split_dot (path target)) |}).
Proof.
  destruct (reduce_members files target reqOptions EmptyString) as (texts & Hall & Hred).
  simpl in Hred. exists texts. split; [exact Hall|].
  unfold processSource.
  erewrite then_ok; [|exact Hred|reflexivity]. now rewrite app_nil_r.
Qed.

(** Resolution of an entry never rejects; the flag of the unit is decided by
    the identifier alone (by the destination for a group), whatever became of
    the read or the fetch. *)
Lemma processSource_fulfils source target reqOptions :
  exists t results,
    processSource world source target reqOptions = (t, Ok results) /\
    forallb is_fetch t = true /\
    minify results =
      match source with
      | Single source => negb (isInvalidPath source) && not_min (Js.split_dot source)
      | Group _ => not_min (Js.split_dot (path target))
      end /\
    ext results =
      match source with
      | Single source => Js.last_part (Js.split_dot source)
      | Group _ => Js.last_part (Js.split_dot (path target))
      end.
Proof.
  destruct source as [source|files].
  - destruct (parseFile_fulfils source target reqOptions) as (t & text & Hp & Hq).
    eexists _, _. split; [|split; [|split]].
    + unfold processSource. eapply then_ok; [exact Hp|reflexivity].
    + now rewrite app_nil_r.
    + reflexivity.
    + reflexivity.
  - destruct (processSource_group files target reqOptions) as (texts & _ & Hrun).
    eexists _, _. split; [exact Hrun|]. split; [apply members_fetch|]. split; reflexivity.
Qed.

Lemma referenced_fetch source url :
  forallb is_fetch (fst (referenced world source url)) = true.
Proof.
  unfold referenced, downloadFile, readFile.
  destruct (is_http url); [reflexivity|]. destruct source; reflexivity.
Qed.

Lemma inline_match_fetch source match_ code :
  forallb is_fetch (fst (inline_match world source match_ code)) = true.
Proof.
  unfold inline_match.
  destruct (Js.search url_re match_ 0) as [[[i len] [[from to]|]]|]; try reflexivity.
  destruct (is_data _); [reflexivity|].
  pose proof (referenced_fetch source
    (Js.trim (substring (i + from) (to - from) match_))) as Hq.
  destruct (referenced world source _) as [t [file|e]]; simpl in Hq.
  - destruct (replace code match_ file); exact Hq.
  - exact Hq.
Qed.

(** A match that throws leaves [code] as it found it. *)
Lemma inline_match_err source match_ code t code' e :
  inline_match world source match_ code = (t, (code', Err e)) -> code' = code.
Proof.
  unfold inline_match.
  destruct (Js.search url_re match_ 0) as [[[i len] [[from to]|]]|];
    try (intros H; injection H; intros; subst; reflexivity).
  destruct (is_data _); [discriminate|].
  destruct (referenced world source _) as [t0 [file|e0]].
  - destruct (replace code match_ file); [discriminate|].
    intros H; injection H; intros; subst; reflexivity.
  - intros H; injection H; intros; subst; reflexivity.
Qed.

Lemma each_match_fetch source matches :
  forall code, forallb is_fetch (fst (each_match world source matches code)) = true.
Proof.
  induction matches as [|match_ rest IH]; intros code; [reflexivity|].
  simpl. pose proof (inline_match_fetch source match_ code) as Hq.
  destruct (inline_match world source match_ code) as [t [code' [[]|e]]]; simpl in Hq.
  - specialize (IH code').
    destruct (each_match world source rest code') as [t' r]. simpl in *.
    now rewrite forallb_app, Hq, IH.
  - exact Hq.
Qed.

(** The loop over the matches, cut after a prefix that went through. *)
Lemma each_match_app source done rest :
  forall code t1 code1,
  each_match world source done code = (t1, (code1, Ok tt)) ->
  each_match world source (done ++ rest) code =
  ((t1 ++ fst (each_match world source rest code1))%list,
   snd (each_match world source rest code1)).
Proof.
  induction done as [|match_ done IH]; intros code t1 code1.
  - simpl. intros [= <- <-]. simpl. now destruct (each_match world source rest code).
  - simpl. destruct (inline_match world source match_ code) as [t [code' [[]|e]]];
      [|discriminate].
    destruct (each_match world source done code') as [t' [code'' r]] eqn:Hd.
    intros [= <- <- ->].
    rewrite (IH code' t' code'' Hd). simpl.
    now rewrite app_assoc.
Qed.

(** Inlining never rejects; it reads or fetches at most. *)
Lemma encodeExternalResources_fulfils code source :
  exists t code',
    encodeExternalResources world code source = (t, Ok code') /\
    forallb is_fetch t = true.
Proof.
  unfold encodeExternalResources.
  destruct (Js.match_all url_re_g code 0) as [|match_ rest]; [eexists _, _; split; reflexivity|].
  pose proof (each_match_fetch source (match_ :: rest) code) as Hq.
  destruct (each_match world source (match_ :: rest) code) as [t [code' [[]|e]]];
    eexists _, _; split; try reflexivity; exact Hq.
Qed.

(** Minification never rejects; it calls a minifier at most. *)
Lemma attemptMinify_fulfils type code (options : Options JsOptions CssOptions) :
  exists t code',
    attemptMinify type code options = (t, Ok code') /\
    forallb is_minifier t = true.
Proof.
  unfold attemptMinify, minifyJs, minifyCss.
  destruct (type =? "js").
  - destruct (obfuscate code (opt_js options)); eexists _, _; split; reflexivity.
  - destruct (type =? "css"); [|eexists _, _; split; reflexivity].
    destruct (cleanCss code (opt_css options)) as [[st [|err errs]]|e];
      eexists _, _; split; reflexivity.
Qed.

(** The first callback of an entry: cleansing comes right after resolution,
    inlining after cleansing and for anything but [js]. *)
Lemma prepare_run target reqOptions source :
  exists tr r ti inlined,
    processSource world source target reqOptions = (tr, Ok r) /\
    (if ext r =? "js" then resolve (code (cleanseResults r))
     else encodeExternalResources world (code (cleanseResults r)) source) =
      (ti, Ok inlined) /\
    forallb is_fetch (tr ++ ti) = true /\
    prepare world target reqOptions source =
      ((tr ++ ti)%list, Ok {| code := inlined; minify := minify r; ext := ext r |}).
Proof.
  destruct (processSource_fulfils source target reqOptions) as (tr & r & Hp & Hq & _).
  unfold prepare.
  destruct (ext r =? "js") eqn:Hjs.
  - exists tr, r, [], (code (cleanseResults r)).
    split; [exact Hp|]. split; [now rewrite Hjs|]. split.
    + now rewrite app_nil_r.
    + eapply then_ok; [exact Hp|]. cbv zeta. cbn [cleanseResults ext]. rewrite Hjs.
      reflexivity.
  - destruct (encodeExternalResources_fulfils (code (cleanseResults r)) source)
      as (ti & inlined & He & Hq').
    exists tr, r, ti, inlined.
    split; [exact Hp|]. split; [now rewrite Hjs|]. split.
    + now rewrite forallb_app, Hq, Hq'.
    + eapply then_ok; [exact Hp|]. cbv zeta. cbn [cleanseResults ext]. rewrite Hjs.
      erewrite then_ok; [|exact He|reflexivity]. now rewrite app_nil_r.
Qed.

(** The pipeline of one entry, stage by stage. *)
Lemma loopFile_stages target (options : Options JsOptions CssOptions) reqOptions source :
  exists tr r ti inlined tm out,
    processSource world source target reqOptions = (tr, Ok r) /\
    (if ext r =? "js" then resolve (code (cleanseResults r))
     else encodeExternalResources world (code (cleanseResults r)) source) =
      (ti, Ok inlined) /\
    attemptMinify (ext r) inlined options = (tm, Ok out) /\
    forallb is_fetch (tr ++ ti) = true /\
    forallb is_minifier tm = true /\
    loopFile world target options reqOptions source =
      if isProd world options && minify r
      then ((tr ++ ti ++ tm ++ [EvWrite (out ++ Js.LF)])%list, Ok tt)
      else ((tr ++ ti ++ [EvWrite (inlined ++ Js.LF)])%list, Ok tt).
Proof.
  destruct (prepare_run target reqOptions source)
    as (tr & r & ti & inlined & Hp & Hi & Hq & Hrun).
  destruct (attemptMinify_fulfils (ext r) inlined options) as (tm & out & Hm & Hqm).
  exists tr, r, ti, inlined, tm, out.
  do 5 (split; [assumption|]).
  unfold loopFile. unfold dispatch.
  destruct (isProd world options) eqn:Hprod; destruct (minify r) eqn:Hmin; cbn [andb].
  - erewrite then_ok; [|exact Hrun|].
    2:{ cbn [minify code ext]. rewrite ?Hmin. cbn [negb orb andb].
        erewrite then_ok; [reflexivity|exact Hm|reflexivity]. }
    now rewrite <- !app_assoc.
  - erewrite then_ok; [|exact Hrun|].
    2:{ cbn [minify code ext]. rewrite ?Hmin. cbn [negb orb andb]. reflexivity. }
    now rewrite <- !app_assoc.
  - erewrite then_ok; [|exact Hrun|].
    2:{ cbn [minify code ext negb orb]. reflexivity. }
    now rewrite <- !app_assoc.
  - erewrite then_ok; [|exact Hrun|].
    2:{ cbn [minify code ext negb orb]. reflexivity. }
    now rewrite <- !app_assoc.
Qed.

(** One entry: effects that write nothing, then one write that ends in a
    line feed. *)
Lemma loopFile_shape target (options : Options JsOptions CssOptions) reqOptions source :
  exists pre out,
    loopFile world target options reqOptions source = (segment (pre, out), Ok tt) /\
    written pre = [].
Proof.
  destruct (loopFile_stages target options reqOptions source)
    as (tr & r & ti & inlined & tm & out & _ & _ & _ & Hq & Hqm & Hrun).
  destruct (isProd world options && minify r).
  - exists (tr ++ ti ++ tm)%list, out. split.
    + rewrite Hrun. unfold segment. cbn [fst snd]. now rewrite <- !app_assoc.
    + rewrite app_assoc, written_app, (fetches_written _ Hq), (minifier_written _ Hqm).
      reflexivity.
  - exists (tr ++ ti)%list, inlined. split.
    + rewrite Hrun. unfold segment. cbn [fst snd]. now rewrite <- !app_assoc.
    + apply fetches_written, Hq.
Qed.

Lemma loopFiles_segments (sources : list Source) target
    (options : Options JsOptions CssOptions) reqOptions :
  exists segs : list (list Event * string),
    Forall2 (fun source seg =>
               loopFile world target options reqOptions source = (segment seg, Ok tt) /\
               written (fst seg) = [])
      sources segs /\
    loopFiles world sources target options reqOptions = (flat_map segment segs, Ok tt).
Proof.
  induction sources as [|source sources IH].
  - exists []. split; [constructor|reflexivity].
  - destruct (loopFile_shape target options reqOptions source) as (pre & out & Hl & Hq).
    destruct IH as (segs & Hall & Hrun).
    exists ((pre, out) :: segs). split.
    + constructor; [split; assumption|exact Hall].
    + unfold loopFiles in *. simpl each.
      erewrite then_ok; [reflexivity|exact Hl|exact Hrun].
Qed.

Lemma written_segments (sources : list Source) (segs : list (list Event * string))
    (P : Source -> list Event * string -> Prop) :
  Forall2 (fun source seg => P source seg /\ written (fst seg) = []) sources segs ->
  written (flat_map segment segs) = map (fun seg => snd seg ++ Js.LF) segs.
Proof.
  induction 1 as [|source seg sources segs [_ Hq] _ IH]; [reflexivity|].
  simpl. unfold segment at 1. rewrite !written_app, Hq, IH. reflexivity.
Qed.

(** *** Ordered, sequential writes *)

(** C1. A pass over N sources fulfils, and its trace is the concatenation, in
    source order, of one segment per source; a segment is the effects of that
    source's own pipeline, none of them a write, followed by exactly one write
    that ends in a line feed.  So the pass writes N newline-terminated chunks
    in source order, and nothing of entry i+1 happens before the write of
    entry i. *)
Theorem pass_writes_in_order (sources : list Source) target
    (options : Options JsOptions CssOptions) reqOptions :
  exists segs : list (list Event * string),
    List.length segs = List.length sources /\
    Forall2 (fun source seg =>
               loopFile world target options reqOptions source = (segment seg, Ok tt) /\
               written (fst seg) = [])
      sources segs /\
    loopFiles world sources target options reqOptions = (flat_map segment segs, Ok tt) /\
    written (fst (loopFiles world sources target options reqOptions)) =
      map (fun seg => snd seg ++ Js.LF) segs.
Proof.
  destruct (loopFiles_segments sources target options reqOptions) as (segs & Hall & Hrun).
  exists segs. repeat split.
  - symmetry. eapply Forall2_length. exact Hall.
  - exact Hall.
  - exact Hrun.
  - rewrite Hrun. simpl fst. eapply written_segments. exact Hall.
Qed.

(** *** Literal sources *)

(** C4, amended. A source that is not a URL and fails the path-validity check
    is resolved without any effect to the marker, the source and the closing
    marker joined by line feeds: the [/*!] form when the last dot-separated
    part of the destination path is [js] or [css], the [<!--] form
    otherwise. *)
Theorem literal_source_wrapped source target reqOptions :
  isUrl source = false -> isInvalidPath source = true ->
  parseFile world source target reqOptions =
  ([], Ok (let type := Js.last_part (Js.split_dot (path target)) in
           if (type =? "js") || (type =? "css")
           then "/*!" ++ Js.LF ++ source ++ Js.LF ++ "*/"
           else "<!--" ++ Js.LF ++ source ++ Js.LF ++ "-->")).
Proof.
  intros Hu Hp. rewrite (parseFile_literal _ _ _ Hu Hp). reflexivity.
Qed.

(** *** Failed fetches *)

Lemma loopFiles_fulfilled (sources : list Source) target
    (options : Options JsOptions CssOptions) reqOptions :
  loopFiles world sources target options reqOptions =
  (fst (loopFiles world sources target options reqOptions), Ok tt).
Proof.
  destruct (loopFiles_segments sources target options reqOptions) as (segs & _ & ->).
  reflexivity.
Qed.

(** A pass around one of its entries: what comes before, the entry, what
    comes after. *)
Lemma loopFiles_around (before after : list Source) source target
    (options : Options JsOptions CssOptions) reqOptions :
  loopFiles world (before ++ source :: after) target options reqOptions =
  ((fst (loopFiles world before target options reqOptions) ++
    fst (loopFile world target options reqOptions source) ++
    fst (loopFiles world after target options reqOptions))%list, Ok tt).
Proof.
  induction before as [|first before IH].
  - destruct (loopFile_shape target options reqOptions source) as (pre & out & Hl & _).
    unfold loopFiles. cbn [app each fst].
    rewrite (then_ok _ _ _ _ _ _ Hl (loopFiles_fulfilled after target options reqOptions)).
    now rewrite Hl.
  - destruct (loopFile_shape target options reqOptions first) as (pre & out & Hl & _).
    unfold loopFiles in *. cbn [app each].
    rewrite (then_ok _ _ _ _ _ _ Hl IH).
    rewrite (then_ok _ _ _ _ _ _ Hl (loopFiles_fulfilled before target options reqOptions)).
    cbn [fst]. now rewrite app_assoc.
Qed.

(** C10. A URL whose fetch fails resolves, after the one fetch, to the URL
    wrapped by the destination's comment rule, which is what an unreadable
    file path resolves to.  Inside a pass the unit of that entry carries the
    wrapped URL as its code; the entry goes through cleansing, inlining and
    the minifier dispatch like any other and is written; the pass does not
    reject, and the entries after it are processed after its write. *)
Theorem failed_fetch_degrades source target reqOptions e
    (before after : list Source) (options : Options JsOptions CssOptions) :
  isUrl source = true ->
  http_get world source reqOptions = Err e ->
  let wrapped := wrapInComment (Js.last_part (Js.split_dot (path target))) source in
  let flag := negb (isInvalidPath source) && not_min (Js.split_dot source) in
  parseFile world source target reqOptions = ([EvGet source], Ok wrapped) /\
  (forall file e',
     isUrl file = false -> isInvalidPath file = false ->
     fs_read world file = Err e' ->
     parseFile world file target reqOptions =
       ([EvRead file], Ok (wrapInComment (Js.last_part (Js.split_dot (path target))) file))) /\
  processSource world (Single source) target reqOptions =
    ([EvGet source],
     Ok {| code := wrapped; minify := flag; ext := Js.last_part (Js.split_dot source) |}) /\
  exists ti inlined tm out,
    (if Js.last_part (Js.split_dot source) =? "js"
     then resolve (Js.trim (Js.remove_first source_map_re wrapped))
     else encodeExternalResources world
            (Js.trim (Js.remove_first source_map_re wrapped)) (Single source)) =
      (ti, Ok inlined) /\
    attemptMinify (Js.last_part (Js.split_dot source)) inlined options = (tm, Ok out) /\
    loopFile world target options reqOptions (Single source) =
      (if isProd world options && flag
       then (EvGet source :: ti ++ tm ++ [EvWrite (out ++ Js.LF)%string])%list
       else (EvGet source :: ti ++ [EvWrite (inlined ++ Js.LF)%string])%list,
       Ok tt) /\
    loopFiles world (before ++ Single source :: after) target options reqOptions =
      ((fst (loopFiles world before target options reqOptions) ++
        fst (loopFile world target options reqOptions (Single source)) ++
        fst (loopFiles world after target options reqOptions))%list, Ok tt) /\
    written (fst (loopFiles world (before ++ Single source :: after) target options
                    reqOptions)) =
      (written (fst (loopFiles world before target options reqOptions)) ++
       ((if isProd world options && flag then out else inlined) ++ Js.LF)%string ::
       written (fst (loopFiles world after target options reqOptions)))%list.
Proof.
  intros Hu Hget wrapped flag.
  assert (Hparse : parseFile world source target reqOptions = ([EvGet source], Ok wrapped)).
  { rewrite (parseFile_url _ _ _ Hu), Hget. reflexivity. }
  assert (Hunit : processSource world (Single source) target reqOptions =
    ([EvGet source],
     Ok {| code := wrapped; minify := flag; ext := Js.last_part (Js.split_dot source) |})).
  { unfold processSource. rewrite Hparse. reflexivity. }
  split; [exact Hparse|]. split.
  { intros file e' Hu' Hp' Hread.
    rewrite (parseFile_path _ _ _ Hu' Hp'), Hread. reflexivity. }
  split; [exact Hunit|].
  destruct (loopFile_stages target options reqOptions (Single source))
    as (tr & r & ti & inlined & tm & out & Hp & Hi & Hm & Hq & Hqm & Hrun).
  rewrite Hunit in Hp. injection Hp as <- <-.
  cbn [ext code minify cleanseResults] in Hi, Hm, Hrun.
  cbn [app] in Hrun, Hq. cbn [forallb is_fetch andb] in Hq.
  exists ti, inlined, tm, out.
  split; [exact Hi|]. split; [exact Hm|]. split.
  { rewrite Hrun. now destruct (isProd world options && flag). }
  split; [apply loopFiles_around|].
  rewrite loopFiles_around. cbn [fst]. rewrite !written_app. f_equal.
  rewrite Hrun.
  destruct (isProd world options && flag); cbn [fst written];
    rewrite !written_app, (fetches_written _ Hq), ?(minifier_written _ Hqm); reflexivity.
Qed.

(** *** Groups *)

(** C7, amended. A group of N members resolves its members in order and
    puts a line feed in front of every resolved text: N line feeds, the first
    of them leading, none trailing.  The flag and the extension come from the
    destination path.  The leading line feed goes away in the cleansing step
    of the pass, which leaves what cleansing the newline-joined texts
    leaves. *)
Theorem group_resolution files target reqOptions :
  exists texts,
    Forall2 (fun file text => snd (parseFile world file target reqOptions) = Ok text)
      files texts /\
    processSource world (Group files) target reqOptions =
      (flat_map (fun file => fst (parseFile world file target reqOptions)) files,
       Ok {| code := match texts with
                     | [] => EmptyString
                     | _ => Js.LF ++ String.concat Js.LF texts
                     end;
             minify := not_min (Js.split_dot (path target));
             ext := Js.last_part (Js.split_dot (path target)) |}) /\
    code (cleanseResults
            {| code := match texts with
                       | [] => EmptyString
                       | _ => Js.LF ++ String.concat Js.LF texts
                       end;
               minify := not_min (Js.split_dot (path target));
               ext := Js.last_part (Js.split_dot (path target)) |}) =
    Js.trim (Js.remove_first source_map_re (String.concat Js.LF texts)).
Proof.
  destruct (processSource_group files target reqOptions) as (texts & Hall & Hrun).
  rewrite concat_prefixed in Hrun.
  exists texts. repeat split.
  - exact Hall.
  - exact Hrun.
  - unfold cleanseResults. cbn [code].
    destruct texts as [|text texts]; [reflexivity|].
    apply cleanse_leading_LF.
Qed.

(** *** Inlining *)

Lemma data_uri_plain mime file :
  Js.no_dollar mime = true -> Js.no_dollar (data_uri mime file) = true.
Proof.
  intros Hm. unfold data_uri. rewrite !no_dollar_app, Hm, base64_plain. reflexivity.
Qed.

(** A reference whose text occurs first at its own place, and whose file is
    classified, is replaced there by the data URI of the file and nothing
    else changes. *)
Lemma replace_reference pre match_ post file mime :
  Js.index_of match_ (pre ++ match_ ++ post) 0 = Some (String.length pre) ->
  sniff file = Some mime ->
  Js.no_dollar mime = true ->
  replace (pre ++ match_ ++ post) match_ file =
  Ok (pre ++ "url('data:" ++ mime ++ ";charset=utf-8;base64," ++ Js.base64 file ++ "')" ++ post).
Proof.
  intros Hi Hs Hm. unfold replace. rewrite Hs.
  rewrite (replace_first_occurrence pre match_ post _ Hi (data_uri_plain mime file Hm)).
  unfold data_uri. now rewrite !string_app_assoc.
Qed.


Lemma encodeExternalResources_run code source :
  encodeExternalResources world code source =
  (fst (each_match world source (Js.match_all url_re_g code 0) code),
   Ok (fst (snd (each_match world source (Js.match_all url_re_g code 0) code)))).
Proof.
  unfold encodeExternalResources.
  destruct (Js.match_all url_re_g code 0) as [|match_ rest]; [reflexivity|].
  destruct (each_match world source (match_ :: rest) code) as [t [code' [[]|e]]];
    reflexivity.
Qed.

(** C2, amended. When a reference throws (its scan, its fetch or read, or its
    classification), inlining stops there and fulfils with the content as the
    references before it left it: what was rewritten before the error stays
    rewritten, the failing reference and every later one are left alone, and
    nothing more is read or fetched.  With no reference before the failing
    one ([done] empty) the content comes back unmodified. *)
Theorem inlining_stops_at_first_error code source done match_ rest t1 code1 t2 code2 e :
  Js.match_all url_re_g code 0 = (done ++ match_ :: rest)%list ->
  each_match world source done code = (t1, (code1, Ok tt)) ->
  inline_match world source match_ code1 = (t2, (code2, Err e)) ->
  encodeExternalResources world code source = ((t1 ++ t2)%list, Ok code1).
Proof.
  intros Hm Hdone Herr.
  rewrite encodeExternalResources_run, Hm.
  rewrite (each_match_app source done (match_ :: rest) code t1 code1 Hdone).
  cbn [each_match]. rewrite Herr. cbn [fst snd].
  now rewrite (inline_match_err _ _ _ _ _ _ Herr).
Qed.

(** *** Minification *)

(** C5, amended. For every entry the text handed on is the cleansed and, for
    anything but [js], inlined content; the minifier dispatch runs on it
    exactly when [minify] or the production signal is set and the unit's flag
    is true, and otherwise that text is written as it is, no minifier having
    been called.  The flag of a single source is false when the identifier
    fails the path-validity check or its last part but one is [min]; it does
    not depend on whether the read or fetch succeeded.  Nothing is said here
    about how the flag of a group is computed. *)
Theorem minification_decision target (options : Options JsOptions CssOptions)
    reqOptions source :
  exists tr r ti inlined tm out,
    processSource world source target reqOptions = (tr, Ok r) /\
    match source with
    | Single source =>
        minify r = negb (isInvalidPath source) && not_min (Js.split_dot source)
    | Group _ => True
    end /\
    (if ext r =? "js" then resolve (code (cleanseResults r))
     else encodeExternalResources world (code (cleanseResults r)) source) =
      (ti, Ok inlined) /\
    attemptMinify (ext r) inlined options = (tm, Ok out) /\
    minified (tr ++ ti) = [] /\
    loopFile world target options reqOptions source =
      if isProd world options && minify r
      then ((tr ++ ti ++ tm ++ [EvWrite (out ++ Js.LF)])%list, Ok tt)
      else ((tr ++ ti ++ [EvWrite (inlined ++ Js.LF)])%list, Ok tt).
Proof.
  destruct (loopFile_stages target options reqOptions source)
    as (tr & r & ti & inlined & tm & out & Hp & Hi & Hm & Hq & _ & Hrun).
  destruct (processSource_fulfils source target reqOptions) as (tr' & r' & Hp' & _ & Hflag & _).
  rewrite Hp in Hp'. injection Hp' as <- <-.
  exists tr, r, ti, inlined, tm, out.
  split; [exact Hp|]. split; [destruct source; [exact Hflag|exact I]|].
  split; [exact Hi|]. split; [exact Hm|].
  split; [apply fetches_minified, Hq|exact Hrun].
Qed.

(** *** Cleansing *)

(** C8, amended. For every entry the cleansing (the first source map
    reference removed, then the trim) is applied to the resolved content,
    before inlining and before minification, and leaves a text that a second
    trim would not change.  What is written is the minifier's answer as it
    came back when minification was due, and the cleansed, inlined text
    otherwise, followed by a line feed; the answer of a minifier is not
    cleansed. *)
Theorem cleansing_precedes_minification target (options : Options JsOptions CssOptions)
    reqOptions source :
  exists tr r ti inlined tm out,
    processSource world source target reqOptions = (tr, Ok r) /\
    code (cleanseResults r) = Js.trim (Js.remove_first source_map_re (code r)) /\
    Js.trim (code (cleanseResults r)) = code (cleanseResults r) /\
    (if ext r =? "js" then resolve (code (cleanseResults r))
     else encodeExternalResources world (code (cleanseResults r)) source) =
      (ti, Ok inlined) /\
    attemptMinify (ext r) inlined options = (tm, Ok out) /\
    written (fst (loopFile world target options reqOptions source)) =
      [(if isProd world options && minify r then out else inlined) ++ Js.LF].
Proof.
  destruct (loopFile_stages target options reqOptions source)
    as (tr & r & ti & inlined & tm & out & Hp & Hi & Hm & Hq & Hqm & Hrun).
  exists tr, r, ti, inlined, tm, out.
  split; [exact Hp|]. split; [reflexivity|]. split; [apply trim_idem|].
  split; [exact Hi|]. split; [exact Hm|].
  rewrite Hrun. rewrite forallb_app in Hq. apply andb_prop in Hq as [Hq1 Hq2].
  destruct (isProd world options && minify r); cbn [fst];
    rewrite !written_app, (fetches_written _ Hq1), (fetches_written _ Hq2),
      ?(minifier_written _ Hqm); reflexivity.
Qed.

(** *** Two destinations *)

Lemma reduce_ext files t1 t2 reqOptions :
  Js.last_part (Js.split_dot (path t1)) = Js.last_part (Js.split_dot (path t2)) ->
  forall acc,
  reduce files (join_step world t1 reqOptions) acc =
  reduce files (join_step world t2 reqOptions) acc.
Proof.
  intros He. induction files as [|file files IH]; intros acc; [reflexivity|].
  simpl. unfold join_step at 1 3. rewrite (parseFile_ext file t1 t2 reqOptions He).
  destruct (parseFile world file t2 reqOptions) as [t [text|e]]; [|reflexivity].
  simpl. now rewrite IH.
Qed.

(** Two destinations with the same last part resolve an entry with the same
    effects to the same text and extension. *)
Lemma processSource_ext source t1 t2 reqOptions :
  Js.last_part (Js.split_dot (path t1)) = Js.last_part (Js.split_dot (path t2)) ->
  exists tr r1 r2,
    processSource world source t1 reqOptions = (tr, Ok r1) /\
    processSource world source t2 reqOptions = (tr, Ok r2) /\
    code r1 = code r2 /\ ext r1 = ext r2.
Proof.
  intros He.
  destruct (processSource_fulfils source t1 reqOptions) as (tr & r1 & Hp1 & _).
  destruct source as [source|files].
  - exists tr, r1, r1. repeat split; try exact Hp1.
    unfold processSource in *. now rewrite <- (parseFile_ext source t1 t2 reqOptions He).
  - unfold processSource in Hp1 |- *.
    change (fun code file => results <- parseFile world file t1 reqOptions ;;
                             resolve (code ++ Js.LF ++ results))
      with (join_step world t1 reqOptions) in Hp1 |- *.
    change (fun code file => results <- parseFile world file t2 reqOptions ;;
                             resolve (code ++ Js.LF ++ results))
      with (join_step world t2 reqOptions).
    rewrite <- (reduce_ext files t1 t2 reqOptions He).
    destruct (reduce files (join_step world t1 reqOptions) EmptyString) as [t [text|e]];
      [|discriminate].
    cbn in Hp1 |- *. injection Hp1 as <- <-.
    eexists _, _, _. split; [reflexivity|]. split; [reflexivity|]. split; [reflexivity|].
    cbn [ext]. exact He.
Qed.

Lemma loopFile_ext source t1 t2 (options : Options JsOptions CssOptions) reqOptions :
  isProd world options = false ->
  Js.last_part (Js.split_dot (path t1)) = Js.last_part (Js.split_dot (path t2)) ->
  loopFile world t1 options reqOptions source = loopFile world t2 options reqOptions source.
Proof.
  intros Hprod He.
  destruct (processSource_ext source t1 t2 reqOptions He) as (tr & r1 & r2 & H1 & H2 & Hc & Hx).
  destruct (loopFile_stages t1 options reqOptions source)
    as (tr1 & r1' & ti1 & in1 & tm1 & out1 & Hp1 & Hi1 & _ & _ & _ & Hrun1).
  destruct (loopFile_stages t2 options reqOptions source)
    as (tr2 & r2' & ti2 & in2 & tm2 & out2 & Hp2 & Hi2 & _ & _ & _ & Hrun2).
  rewrite H1 in Hp1. injection Hp1 as <- <-.
  rewrite H2 in Hp2. injection Hp2 as <- <-.
  rewrite Hrun1, Hrun2, Hprod. cbn [andb].
  unfold cleanseResults in Hi1, Hi2. cbn [code] in Hi1, Hi2.
  rewrite Hc, Hx, Hi2 in Hi1. injection Hi1 as <- <-. reflexivity.
Qed.

Lemma loopFiles_ext sources t1 t2 (options : Options JsOptions CssOptions) reqOptions :
  isProd world options = false ->
  Js.last_part (Js.split_dot (path t1)) = Js.last_part (Js.split_dot (path t2)) ->
  loopFiles world sources t1 options reqOptions = loopFiles world sources t2 options reqOptions.
Proof.
  intros Hprod He. unfold loopFiles.
  induction sources as [|source sources IH]; [reflexivity|].
  simpl. now rewrite (loopFile_ext source t1 t2 options reqOptions Hprod He), IH.
Qed.

(** A call of [bundle]: the stream is opened, the pass runs, the stream is
    ended, and in watch mode the watcher is installed. *)
Lemma bundle_run sources destination (options : option (Options JsOptions CssOptions))
    reqOptions :
  exists t,
    loopFiles world sources {| path := destination |} (or_default options) reqOptions =
      (t, Ok tt) /\
    bundle world sources destination options reqOptions =
      ((EvOpen destination :: t ++ EvEnd ::
          (if negb (opt_watch (or_default options)) then [] else [EvWatch]))%list,
       Ok tt).
Proof.
  destruct (loopFiles_segments sources {| path := destination |} (or_default options) reqOptions)
    as (segs & _ & Hrun).
  exists (flat_map segment segs). split; [exact Hrun|].
  unfold bundle. cbv zeta. unfold emit at 1. cbn [then_].
  rewrite Hrun. cbn [then_ emit].
  destruct (negb (opt_watch (or_default options))); reflexivity.
Qed.

(** C9, amended. With minification not active, bundling the same sources from
    the same world into two destinations whose paths have the same last
    dot-separated part leaves the same bytes in both. *)
Theorem same_extension_same_output sources d1 d2
    (options : option (Options JsOptions CssOptions)) reqOptions :
  isProd world (or_default options) = false ->
  Js.last_part (Js.split_dot d1) = Js.last_part (Js.split_dot d2) ->
  output (fst (bundle world sources d1 options reqOptions)) =
  output (fst (bundle world sources d2 options reqOptions)).
Proof.
  intros Hprod He.
  destruct (bundle_run sources d1 options reqOptions) as (t1 & Hl1 & Hb1).
  destruct (bundle_run sources d2 options reqOptions) as (t2 & Hl2 & Hb2).
  rewrite (loopFiles_ext sources {| path := d1 |} {| path := d2 |}
             (or_default options) reqOptions Hprod He), Hl2 in Hl1.
  injection Hl1 as <-.
  now rewrite Hb1, Hb2.
Qed.

End PackagerFacts.

(** ** The packager on the concrete environment *)

(** Two quoted references to files that are there: both are rewritten. *)
Example quoted_references_inlined :
  encodeExternalResources (libs := Fixture.libs) Fixture.world
    "a{background:url('a.png')} b{background:url('b.png')}" (Single "quoted.css") =
  ([EvRead "a.png"; EvRead "b.png"],
   Ok "a{background:url('data:image/png;charset=utf-8;base64,iVBORw0KGgo=')} b{background:url('data:image/png;charset=utf-8;base64,iVBORw0KGgoA')}").
Proof. vm_compute. reflexivity. Qed.

(** The witness of C2: the second reference of [broken.css] cannot be read. *)
Lemma inlining_stops_at_first_error_witness :
  encodeExternalResources (libs := Fixture.libs) Fixture.world
    "a{background:url('a.png')} b{background:url('gone.png')}" (Single "broken.css") =
  ([EvRead "a.png"; EvRead "gone.png"],
   Ok "a{background:url('data:image/png;charset=utf-8;base64,iVBORw0KGgo=')} b{background:url('gone.png')}").
Proof.
  apply (inlining_stops_at_first_error (libs := Fixture.libs) Fixture.world
           "a{background:url('a.png')} b{background:url('gone.png')}"
           (Single "broken.css")
           ["url('a.png')"] "url('gone.png')" []
           [EvRead "a.png"]
           "a{background:url('data:image/png;charset=utf-8;base64,iVBORw0KGgo=')} b{background:url('gone.png')}"
           [EvRead "gone.png"]
           "a{background:url('data:image/png;charset=utf-8;base64,iVBORw0KGgo=')} b{background:url('gone.png')}"
           (Failure "ENOENT")); vm_compute; reflexivity.
Defined.

(** The counterexample to C2: a read that fails at the second reference
    leaves the first reference rewritten, so the content does not come back
    unmodified. *)
Lemma partial_inlining_counterexample :
  fs_read Fixture.world "gone.png" = Err (Failure "ENOENT") /\
  snd (encodeExternalResources (libs := Fixture.libs) Fixture.world
         "a{background:url('a.png')} b{background:url('gone.png')}" (Single "broken.css")) =
    Ok "a{background:url('data:image/png;charset=utf-8;base64,iVBORw0KGgo=')} b{background:url('gone.png')}" /\
  snd (encodeExternalResources (libs := Fixture.libs) Fixture.world
         "a{background:url('a.png')} b{background:url('gone.png')}" (Single "broken.css")) <>
    Ok "a{background:url('a.png')} b{background:url('gone.png')}".
Proof.
  split; [reflexivity|]. split; [vm_compute; reflexivity|].
  vm_compute. discriminate.
Qed.

(** The witness of C4. *)
Lemma literal_source_wrapped_witness :
  parseFile (libs := Fixture.libs) Fixture.world "a <b> c" {| path := "out.css" |} None =
  ([], Ok ("/*!" ++ Js.LF ++ "a <b> c" ++ Js.LF ++ "*/")).
Proof.
  apply (literal_source_wrapped (libs := Fixture.libs) Fixture.world
           "a <b> c" {| path := "out.css" |} None); reflexivity.
Defined.

(** The counterexample to C4: the parts of the comment are joined by line
    feeds, not by spaces; and a destination named [css], which does not end in
    [.css], gets the [/*!] form. *)
Lemma literal_source_format_counterexample :
  parseFile (libs := Fixture.libs) Fixture.world "a <b> c" {| path := "out.js" |} None <>
    ([], Ok "/*! a <b> c */") /\
  parseFile (libs := Fixture.libs) Fixture.world "a <b> c" {| path := "css" |} None <>
    ([], Ok ("<!--" ++ Js.LF ++ "a <b> c" ++ Js.LF ++ "-->")).
Proof.
  split; vm_compute; discriminate.
Qed.

(** The counterexample to C5: [missing.js] is a valid path that cannot be
    read, resolution falls back to the comment, and the flag of the unit is
    still true, so the comment goes through the obfuscator.  And without
    minification a style sheet is written with its references inlined, not
    merely cleansed. *)
Lemma failed_read_still_minified :
  fs_read Fixture.world "missing.js" = Err (Failure "ENOENT") /\
  processSource (libs := Fixture.libs) Fixture.world (Single "missing.js")
    {| path := "out.js" |} None =
    ([EvRead "missing.js"],
     Ok {| code := "/*!" ++ Js.LF ++ "missing.js" ++ Js.LF ++ "*/";
           minify := true; ext := "js" |}) /\
  minified (fst (loopFile (libs := Fixture.libs) Fixture.world {| path := "out.js" |}
                   Fixture.minifying None (Single "missing.js"))) =
    ["/*!" ++ Js.LF ++ "missing.js" ++ Js.LF ++ "*/"] /\
  written (fst (loopFile (libs := Fixture.libs) Fixture.world {| path := "out.css" |}
                  Fixture.plain None (Single "quoted.css"))) <>
    [Js.trim (Js.remove_first source_map_re
                "a{background:url('a.png')} b{background:url('b.png')}") ++ Js.LF].
Proof.
  split; [reflexivity|]. split; [vm_compute; reflexivity|].
  split; [vm_compute; reflexivity|]. vm_compute. discriminate.
Qed.

(** The counterexample to C7: the text of a group of two begins with a line
    feed, so it is not the two resolved texts with one line feed between
    them. *)
Lemma group_leading_newline_counterexample :
  exists a b,
    snd (parseFile (libs := Fixture.libs) Fixture.world "a.js" {| path := "out.js" |} None) = Ok a /\
    snd (parseFile (libs := Fixture.libs) Fixture.world "b.js" {| path := "out.js" |} None) = Ok b /\
    snd (processSource (libs := Fixture.libs) Fixture.world (Group ["a.js"; "b.js"])
           {| path := "out.js" |} None) =
      Ok {| code := Js.LF ++ a ++ Js.LF ++ b; minify := true; ext := "js" |} /\
    Js.LF ++ a ++ Js.LF ++ b <> a ++ Js.LF ++ b.
Proof.
  eexists _, _. split; [vm_compute; reflexivity|]. split; [vm_compute; reflexivity|].
  split; [vm_compute; reflexivity|]. vm_compute. discriminate.
Qed.

(** The counterexample to C8.  Minification succeeds: the obfuscator's answer
    ends in a source map reference and is written as it came back.
    Minification falls back: of the two source map references of a group only
    the first was removed before the obfuscator was tried, and the text
    written still ends in one.  Cleansing either text again would change
    it. *)
Lemma minifier_output_not_cleansed :
  written (fst (loopFile (libs := Fixture.libs) Fixture.world {| path := "out.js" |}
                  Fixture.minifying None (Single "a.js"))) =
    [("var _0x1=[];var a = 1;" ++ Js.LF ++ "//# sourceMappingURL=out.js.map") ++ Js.LF] /\
  Js.trim (Js.remove_first source_map_re
             ("var _0x1=[];var a = 1;" ++ Js.LF ++ "//# sourceMappingURL=out.js.map")) <>
    "var _0x1=[];var a = 1;" ++ Js.LF ++ "//# sourceMappingURL=out.js.map" /\
  minified (fst (loopFile (libs := Fixture.libs) Fixture.world {| path := "out.js" |}
                   Fixture.failing None (Group ["a.js"; "b.js"]))) =
    ["var a = 1;" ++ Js.LF ++ "var b = 2;" ++ Js.LF ++ "//# sourceMappingURL=b.js.map"] /\
  written (fst (loopFile (libs := Fixture.libs) Fixture.world {| path := "out.js" |}
                  Fixture.failing None (Group ["a.js"; "b.js"]))) =
    [("var a = 1;" ++ Js.LF ++ "var b = 2;" ++ Js.LF ++ "//# sourceMappingURL=b.js.map")
       ++ Js.LF] /\
  Js.trim (Js.remove_first source_map_re
             ("var a = 1;" ++ Js.LF ++ "var b = 2;" ++ Js.LF ++ "//# sourceMappingURL=b.js.map")) <>
    "var a = 1;" ++ Js.LF ++ "var b = 2;" ++ Js.LF ++ "//# sourceMappingURL=b.js.map".
Proof.
  split; [vm_compute; reflexivity|]. split; [vm_compute; discriminate|].
  split; [vm_compute; reflexivity|]. split; [vm_compute; reflexivity|].
  vm_compute. discriminate.
Qed.

(** The witness of C9: two style sheet destinations. *)
Lemma same_extension_same_output_witness :
  output (fst (bundle (libs := Fixture.libs) Fixture.world
                 [Single "a <b> c"; Single "quoted.css"; Group ["a.js"; "b.js"]]
                 "out.css" (Some Fixture.plain) None)) =
  output (fst (bundle (libs := Fixture.libs) Fixture.world
                 [Single "a <b> c"; Single "quoted.css"; Group ["a.js"; "b.js"]]
                 "dist/all.min.css" (Some Fixture.plain) None)).
Proof.
  apply (same_extension_same_output (libs := Fixture.libs) Fixture.world
           [Single "a <b> c"; Single "quoted.css"; Group ["a.js"; "b.js"]]
           "out.css" "dist/all.min.css" (Some Fixture.plain) None); reflexivity.
Defined.

(** The counterexample to C9: the same literal source, no minification, no
    watching, and two destinations of different kinds. *)
Lemma two_destinations_counterexample :
  isProd Fixture.world (or_default (JsOptions := bool) (CssOptions := unit) None) = false /\
  output (fst (bundle (libs := Fixture.libs) Fixture.world [Single "a <b> c"]
                 "out.js" None None)) =
    "/*!" ++ Js.LF ++ "a <b> c" ++ Js.LF ++ "*/" ++ Js.LF /\
  output (fst (bundle (libs := Fixture.libs) Fixture.world [Single "a <b> c"]
                 "out.html" None None)) =
    "<!--" ++ Js.LF ++ "a <b> c" ++ Js.LF ++ "-->" ++ Js.LF /\
  output (fst (bundle (libs := Fixture.libs) Fixture.world [Single "a <b> c"]
                 "out.js" None None)) <>
  output (fst (bundle (libs := Fixture.libs) Fixture.world [Single "a <b> c"]
                 "out.html" None None)).
Proof.
  split; [reflexivity|]. split; [vm_compute; reflexivity|].
  split; [vm_compute; reflexivity|]. vm_compute. discriminate.
Qed.

(** The witness of C10: the network of the concrete environment is down.
    The URL is the second of three sources. *)
Lemma failed_fetch_degrades_witness :
  processSource (libs := Fixture.libs) Fixture.world (Single "http://x.org/lib.js")
    {| path := "out.js" |} None =
    ([EvGet "http://x.org/lib.js"],
     Ok {| code := "/*!" ++ Js.LF ++ "http://x.org/lib.js" ++ Js.LF ++ "*/";
           minify := true; ext := "js" |}) /\
  loopFiles (libs := Fixture.libs) Fixture.world
    [Single "a <b> c"; Single "http://x.org/lib.js"; Single "a.js"] {| path := "out.js" |}
    Fixture.plain None =
  ([EvWrite ("/*!" ++ Js.LF ++ "a <b> c" ++ Js.LF ++ "*/" ++ Js.LF);
    EvGet "http://x.org/lib.js";
    EvWrite ("/*!" ++ Js.LF ++ "http://x.org/lib.js" ++ Js.LF ++ "*/" ++ Js.LF);
    EvRead "a.js";
    EvWrite ("var a = 1;" ++ Js.LF)], Ok tt).
Proof.
  destruct (failed_fetch_degrades (libs := Fixture.libs) Fixture.world
              "http://x.org/lib.js" {| path := "out.js" |} None (Failure "ECONNREFUSED")
              [Single "a <b> c"] [Single "a.js"] Fixture.plain eq_refl eq_refl)
    as (_ & _ & Hunit & ti & inlined & tm & out & _ & _ & _ & Hpass & _).
  split; [exact Hunit|]. cbn [app] in Hpass. rewrite Hpass. vm_compute. reflexivity.
Defined.

(** C6. The claim fails on the code at two contents whose referenced files
    are there.  In a style sheet without white space or quotes between two
    references the greedy class of the pattern runs to the last closing
    parenthesis, the single match names no file, and neither reference is
    rewritten.  And a reference whose text also occurs inside an earlier data
    URI is replaced there, [replace] taking the first occurrence of the text:
    the data URI is altered and the reference is left as it was. *)
Theorem references_not_rewritten :
  fs_read Fixture.world "a.png" = Ok Fixture.png /\
  Js.match_all url_re_g ".a{background:url(a.png)}.b{background:url(b.png)}" 0 =
    ["url(a.png)}.b{background:url(b.png)"] /\
  encodeExternalResources (libs := Fixture.libs) Fixture.world
    ".a{background:url(a.png)}.b{background:url(b.png)}" (Single "compact.css") =
    ([EvRead "a.png)}.b{background:url(b.png"],
     Ok ".a{background:url(a.png)}.b{background:url(b.png)}") /\
  Js.match_all url_re_g "a{background:url(data:url(b.png))} b{background:url(b.png)}" 0 =
    ["url(data:url(b.png))"; "url(b.png)"] /\
  encodeExternalResources (libs := Fixture.libs) Fixture.world
    "a{background:url(data:url(b.png))} b{background:url(b.png)}" (Single "nested.css") =
    ([EvRead "b.png"],
     Ok "a{background:url(data:url('data:image/png;charset=utf-8;base64,iVBORw0KGgoA'))} b{background:url(b.png)}").
Proof.
  split; [reflexivity|]. split; [vm_compute; reflexivity|].
  split; [vm_compute; reflexivity|]. split; vm_compute; reflexivity.
Qed.

(** ** Watch mode, run *)

Lemma run_app r s es es' :
  Watch.run r s (es ++ es') = Watch.run r (Watch.run r s es) es'.
Proof. apply fold_left_app. Qed.

(** Without a watcher, events change nothing. *)
Lemma changes_unwatched r n :
  forall ps st,
  Watch.run r {| Watch.gates := []; Watch.passes := ps; Watch.started := st |}
    (repeat Watch.Change n) =
  {| Watch.gates := []; Watch.passes := ps; Watch.started := st |}.
Proof.
  induction n as [|n IH]; intros ps st; [reflexivity|].
  cbn [repeat Watch.run fold_left]. cbn [Watch.step Watch.deliver Watch.gates
    Watch.passes Watch.started List.length].
  rewrite app_nil_r, Nat.add_0_r. apply IH.
Qed.

(** A gate without a free slot queues what arrives and starts nothing. *)
Lemma deliver_busy gs :
  forall i, Forall Watch.busy gs ->
  exists gs',
    Watch.deliver i gs = (gs', []) /\ Forall Watch.busy gs' /\
    List.length gs' = List.length gs.
Proof.
  induction gs as [|g gs IH]; intros i Hb.
  - exists []. repeat split; constructor.
  - inversion Hb as [|g0 gs0 Hg Hgs]; subst.
    destruct (IH (S i) Hgs) as (gs' & Hd & Hb' & Hlen).
    exists ({| Watch.running := Watch.running g; Watch.waiting := S (Watch.waiting g) |} :: gs').
    cbn [Watch.deliver]. unfold Watch._bundle, Watch.acquire.
    unfold Watch.busy in Hg.
    destruct (Nat.ltb_spec (Watch.running g) Watch.limit) as [Hlt|Hge]; [lia|].
    rewrite Hd. repeat split.
    + constructor; [exact Hg|exact Hb'].
    + cbn [List.length]. now rewrite Hlen.
Qed.

(** The newest gate, alone free, admits the event and starts one pass. *)
Lemma deliver_newest gs g :
  forall i, Forall Watch.busy gs -> Watch.running g = 0 ->
  exists gs',
    Watch.deliver i (gs ++ [g]) = (gs', [Some (i + List.length gs)]) /\
    Forall Watch.busy gs'.
Proof.
  induction gs as [|g0 gs IH]; intros i Hb Hfree.
  - exists [{| Watch.running := 1; Watch.waiting := 0 |}].
    cbn [app Watch.deliver]. unfold Watch._bundle, Watch.acquire, Watch.callback, Watch.clear.
    rewrite Hfree. cbn. rewrite Nat.add_0_r. split; [reflexivity|].
    constructor; [unfold Watch.busy, Watch.limit; cbn; lia|constructor].
  - inversion Hb as [|g1 gs1 Hg Hgs]; subst.
    destruct (IH (S i) Hgs Hfree) as (gs' & Hd & Hb').
    exists ({| Watch.running := Watch.running g0; Watch.waiting := S (Watch.waiting g0) |} :: gs').
    cbn [app Watch.deliver]. unfold Watch._bundle, Watch.acquire.
    unfold Watch.busy in Hg.
    destruct (Nat.ltb_spec (Watch.running g0) Watch.limit) as [Hlt|Hge]; [lia|].
    rewrite Hd. cbn [app List.length]. rewrite <- plus_n_Sm. split; [reflexivity|].
    constructor; [exact Hg|exact Hb'].
Qed.

Lemma settled_step s e :
  Watch.settled s -> Watch.settled (Watch.step Watch.OnResolve s e).
Proof.
  intros [[[owner Hp] Hb]|[Hp (gs & g & Hg & Hb & Hfree)]]; destruct e as [|k].
  - (* an event during a pass *)
    destruct (deliver_busy (Watch.gates s) 0 Hb) as (gs' & Hd & Hb' & _).
    left. cbn [Watch.step]. rewrite Hd. cbn [Watch.passes Watch.gates].
    split; [exists owner; now rewrite app_nil_r|exact Hb'].
  - (* a pass completes *)
    cbn [Watch.step]. rewrite Hp.
    destruct k as [|k]; cbn [nth_error].
    + right. destruct owner; cbn [Watch.passes Watch.gates Watch.remove_nth];
        (split; [reflexivity|]);
        exists (Watch.gates s), {| Watch.running := 0; Watch.waiting := 0 |};
        repeat split; assumption.
    + destruct k; cbn [nth_error]; left; (split; [exists owner; exact Hp|exact Hb]).
  - (* an event while idle *)
    left. cbn [Watch.step]. rewrite Hg.
    destruct (deliver_newest gs g 0 Hb Hfree) as (gs' & Hd & Hb').
    rewrite Hd. cbn [Watch.passes Watch.gates]. rewrite Hp.
    split; [eexists; reflexivity|exact Hb'].
  - (* no pass to complete *)
    cbn [Watch.step]. rewrite Hp. destruct k; cbn [nth_error];
      right; (split; [exact Hp|]); exists gs, g; repeat split; assumption.
Qed.

(** With gates released by [resolve] only, passes never overlap. *)
Lemma resolve_gate_single_flight es :
  Watch.in_flight (Watch.run Watch.OnResolve Watch.init es) <= 1.
Proof.
  assert (Hs : Watch.settled (Watch.run Watch.OnResolve Watch.init es)).
  { assert (H0 : Watch.settled Watch.init).
    { left. split; [exists None; reflexivity|constructor]. }
    revert H0. generalize Watch.init. unfold Watch.run.
    induction es as [|e es IH]; intros s Hs; [exact Hs|].
    cbn [fold_left]. apply IH, settled_step, Hs. }
  unfold Watch.in_flight.
  destruct Hs as [[[owner ->] _]|[-> _]]; cbn; lia.
Qed.

(** Events that reach only gates without a free slot are queued. *)
Lemma changes_queued r n :
  forall w ps st,
  Watch.run r {| Watch.gates := [{| Watch.running := 1; Watch.waiting := w |}];
                 Watch.passes := ps; Watch.started := st |}
    (repeat Watch.Change n) =
  {| Watch.gates := [{| Watch.running := 1; Watch.waiting := n + w |}];
     Watch.passes := ps; Watch.started := st |}.
Proof.
  induction n as [|n IH]; intros w ps st; [reflexivity|].
  cbn [repeat Watch.run fold_left].
  change (Watch.step r _ Watch.Change) with
    {| Watch.gates := [{| Watch.running := 1; Watch.waiting := S w |}];
       Watch.passes := (ps ++ [])%list; Watch.started := st + 0 |}.
  rewrite app_nil_r, Nat.add_0_r.
  unfold Watch.run in IH. rewrite IH. now rewrite <- plus_n_Sm.
Qed.

(** C3. The claim fails on the code.  The watcher and its gate are created
    only when a pass has completed, so any number of events during the pass
    that [bundle] starts with cause no pass at all.  Every completed pass
    creates one more watcher with a gate of its own.  With a gate that is
    released by [resolve], which the callback never calls, the events during a
    rebuild are queued for good and no pass follows.  With a gate that is
    released by the returned promise, the watcher left by the earlier pass
    answers the next event as the new one does, and two passes are in
    flight. *)
Theorem watch_rebuilds_diverge :
  (forall r n,
     Watch.started (Watch.run r Watch.init (repeat Watch.Change n ++ [Watch.Done 0])) = 1 /\
     Watch.in_flight (Watch.run r Watch.init (repeat Watch.Change n ++ [Watch.Done 0])) = 0) /\
  (Watch.in_flight (Watch.run Watch.OnResolve Watch.init [Watch.Done 0; Watch.Change]) = 1 /\
   Watch.started (Watch.run Watch.OnResolve Watch.init [Watch.Done 0; Watch.Change]) = 2 /\
   forall n,
     Watch.started (Watch.run Watch.OnResolve Watch.init
                      ([Watch.Done 0; Watch.Change] ++ repeat Watch.Change n ++ [Watch.Done 0])) = 2 /\
     Watch.in_flight (Watch.run Watch.OnResolve Watch.init
                        ([Watch.Done 0; Watch.Change] ++ repeat Watch.Change n ++ [Watch.Done 0])) = 0) /\
  Watch.in_flight (Watch.run Watch.OnReturn Watch.init
                     [Watch.Done 0; Watch.Change; Watch.Done 0; Watch.Change]) = 2.
Proof.
  split; [|split; [split; [reflexivity|split; [reflexivity|]]|reflexivity]].
  - intros r n. rewrite run_app. unfold Watch.init.
    rewrite changes_unwatched. destruct r; split; reflexivity.
  - intros n. rewrite !run_app.
    change (Watch.run Watch.OnResolve Watch.init [Watch.Done 0; Watch.Change]) with
      {| Watch.gates := [{| Watch.running := 1; Watch.waiting := 0 |}];
         Watch.passes := [Some 0]; Watch.started := 2 |}.
    rewrite changes_queued. split; reflexivity.
Qed.

(** ** Further facts about strings and patterns *)

Lemma index_of_shift pat s :
  forall i,
  Js.index_of pat s (S i) =
  match Js.index_of pat s i with
  | Some j => Some (S j)
  | None => None
  end.
Proof.
  induction s as [|c s IH]; intros i; cbn [Js.index_of].
  - destruct (prefix pat EmptyString); reflexivity.
  - destruct (prefix pat (String c s)); [reflexivity|apply IH].
Qed.

Lemma contains_prefix pat s : prefix pat s = true -> Js.contains pat s = true.
Proof.
  intros H. unfold Js.contains. destruct s; cbn [Js.index_of]; now rewrite H.
Qed.

Lemma contains_cons pat c s :
  Js.contains pat s = true -> Js.contains pat (String c s) = true.
Proof.
  unfold Js.contains. cbn [Js.index_of].
  destruct (prefix pat (String c s)); [reflexivity|].
  rewrite index_of_shift. now destruct (Js.index_of pat s 0).
Qed.

Lemma prefix_app (w rest : string) : prefix w (w ++ rest) = true.
Proof.
  induction w as [|c w IH]; cbn [append prefix]; [now destruct rest|].
  destruct (ascii_dec c c); [exact IH|contradiction].
Qed.

Lemma contains_app (a w b : string) : Js.contains w (a ++ w ++ b) = true.
Proof.
  induction a as [|c a IH]; cbn [append].
  - apply contains_prefix, prefix_app.
  - apply contains_cons, IH.
Qed.

(** A pattern that begins with a literal word matches only where the word
    is. *)
Lemma exec_lits w p :
  forall s n op cap r,
  Js.exec (Js.lits w ++ p)%list s n op cap = Some r -> prefix w s = true.
Proof.
  induction w as [|c w IH]; intros s n op cap r H.
  - now destruct s.
  - cbn [Js.lits app Js.exec] in H. destruct s as [|d s]; [discriminate|].
    destruct (Ascii.eqb_spec c d) as [->|Hne]; [|discriminate].
    cbn [prefix]. destruct (ascii_dec d d); [|contradiction].
    eapply IH, H.
Qed.

(** A pattern with a literal word in it matches only a text that has the
    word. *)
Lemma exec_needs w p q :
  forall s n op cap r,
  Js.exec (q ++ Js.lits w ++ p)%list s n op cap = Some r -> Js.contains w s = true.
Proof.
  induction q as [|a q IH]; intros s n op cap r H.
  - apply contains_prefix. eapply exec_lits, H.
  - destruct a as [c|c|cls| |]; cbn [app Js.exec] in H.
    + destruct s as [|d s]; [discriminate|].
      destruct (Ascii.eqb c d); [|discriminate].
      apply contains_cons. eapply IH, H.
    + destruct s as [|d s]; [eapply IH, H|].
      destruct (Ascii.eqb c d); [|eapply IH, H].
      destruct (Js.exec (q ++ Js.lits w ++ p)%list s (S n) op cap) eqn:He.
      * apply contains_cons. eapply IH, He.
      * eapply IH, H.
    + match type of H with ?f s n = Some r => set (star := f) in * end.
      revert n H. induction s as [|d s IHs]; intros n H.
      * eapply IH, H.
      * unfold star in H. cbn in H. fold star in H.
        destruct (cls d); [|eapply IH, H].
        destruct (star s (S n)) eqn:He.
        -- injection H as <-. apply contains_cons. eapply IHs, He.
        -- eapply IH, H.
    + eapply IH, H.
    + eapply IH, H.
Qed.

Lemma contains_tail pat c s :
  Js.contains pat (String c s) = false -> Js.contains pat s = false.
Proof.
  intros H. destruct (Js.contains pat s) eqn:Hs; [|reflexivity].
  now rewrite (contains_cons pat c s Hs) in H.
Qed.

Lemma search_needs w p q s :
  forall i, Js.contains w s = false -> Js.search (q ++ Js.lits w ++ p)%list s i = None.
Proof.
  induction s as [|c s IH]; intros i Hc; cbn [Js.search].
  - destruct (Js.exec (q ++ Js.lits w ++ p)%list EmptyString 0 0 None) as [[len cap]|] eqn:He;
      [|reflexivity].
    now rewrite (exec_needs _ _ _ _ _ _ _ _ He) in Hc.
  - destruct (Js.exec (q ++ Js.lits w ++ p)%list (String c s) 0 0 None) as [[len cap]|] eqn:He.
    + now rewrite (exec_needs _ _ _ _ _ _ _ _ He) in Hc.
    + apply IH. eapply contains_tail, Hc.
Qed.

Lemma match_all_needs w p q s :
  forall skip, Js.contains w s = false -> Js.match_all (q ++ Js.lits w ++ p)%list s skip = [].
Proof.
  induction s as [|c s IH]; intros skip Hc.
  - destruct skip; cbn [Js.match_all]; [|reflexivity].
    destruct (Js.exec (q ++ Js.lits w ++ p)%list EmptyString 0 0 None) as [[len cap]|] eqn:He;
      [|reflexivity].
    now rewrite (exec_needs _ _ _ _ _ _ _ _ He) in Hc.
  - destruct skip; cbn [Js.match_all].
    + destruct (Js.exec (q ++ Js.lits w ++ p)%list (String c s) 0 0 None) as [[len cap]|] eqn:He.
      * now rewrite (exec_needs _ _ _ _ _ _ _ _ He) in Hc.
      * apply IH. eapply contains_tail, Hc.
    + apply IH. eapply contains_tail, Hc.
Qed.

Lemma substring_app (pre s post : string) :
  substring (String.length pre) (String.length s) (pre ++ s ++ post) = s.
Proof.
  induction pre as [|c pre IH]; cbn [String.length append substring].
  - induction s as [|d s IHs]; cbn [String.length append substring].
    + now destruct post.
    + now rewrite IHs.
  - exact IH.
Qed.

(** ** Further facts about the packager *)

(** X3. [wrapInComment] keeps the text verbatim between its markers: the
    text can be read back at offset 4 (for [js] and [css]) or 5, nothing in it
    is escaped, and the wrapper adds 7 or 9 characters. *)
Theorem wrapInComment_verbatim (type code : string) :
  substring (if (type =? "js") || (type =? "css") then 4 else 5)
    (String.length code) (wrapInComment type code) = code /\
  String.length (wrapInComment type code) =
    String.length code + (if (type =? "js") || (type =? "css") then 7 else 9).
Proof.
  unfold wrapInComment.
  destruct ((type =? "js") || (type =? "css")).
  - split.
    + change ("/*!" ++ Js.LF ++ code ++ Js.LF ++ "*/")
        with (("/*!" ++ Js.LF) ++ code ++ (Js.LF ++ "*/")).
      apply (substring_app ("/*!" ++ Js.LF) code (Js.LF ++ "*/")).
    + change ("/*!" ++ Js.LF ++ code ++ Js.LF ++ "*/")
        with (("/*!" ++ Js.LF) ++ code ++ (Js.LF ++ "*/")).
      rewrite !string_length_app. cbn. lia.
  - split.
    + change ("<!--" ++ Js.LF ++ code ++ Js.LF ++ "-->")
        with (("<!--" ++ Js.LF) ++ code ++ (Js.LF ++ "-->")).
      apply (substring_app ("<!--" ++ Js.LF) code (Js.LF ++ "-->")).
    + change ("<!--" ++ Js.LF ++ code ++ Js.LF ++ "-->")
        with (("<!--" ++ Js.LF) ++ code ++ (Js.LF ++ "-->")).
      rewrite !string_length_app. cbn. lia.
Qed.

(** X4. A text that lacks the marker [//# sourceMappingURL=], or that has no
    [.map] in it (an inline source map given as a data URI, say), is only
    trimmed by [cleanseResults]; flag and extension are kept. *)
Theorem cleanse_without_source_map (results : Results) :
  Js.contains "//# sourceMappingURL=" (code results) = false \/
  Js.contains ".map" (code results) = false ->
  cleanseResults results =
  {| code := Js.trim (code results); minify := minify results; ext := ext results |}.
Proof.
  intros H. unfold cleanseResults, Js.remove_first.
  assert (Hs : Js.search source_map_re (code results) 0 = None).
  { destruct H as [H|H].
    - change source_map_re with
        ([] ++ Js.lits "//# sourceMappingURL=" ++
         ([Js.Star Js.is_dot] ++ Js.lits ".map" ++ [Js.Star Js.is_ws]))%list.
      apply search_needs, H.
    - change source_map_re with
        ((Js.lits "//# sourceMappingURL=" ++ [Js.Star Js.is_dot]) ++ Js.lits ".map" ++
         [Js.Star Js.is_ws])%list.
      apply search_needs, H. }
  now rewrite Hs.
Qed.

Lemma cleanse_without_source_map_witness :
  cleanseResults
    {| code := " var a;//# sourceMappingURL=data:application/json;base64,e30= ";
       minify := true; ext := "js" |} =
  {| code := "var a;//# sourceMappingURL=data:application/json;base64,e30=";
     minify := true; ext := "js" |}.
Proof.
  apply (cleanse_without_source_map
           {| code := " var a;//# sourceMappingURL=data:application/json;base64,e30= ";
              minify := true; ext := "js" |}).
  right. reflexivity.
Defined.

Section PackagerMore.

Context {JsOptions CssOptions ReqOptions : Type}.
Context {libs : Collaborators JsOptions CssOptions ReqOptions}.
Variable world : World ReqOptions.

(** X1. [attemptMinify] never rejects and calls a minifier at most once.  What
    it hands back is the code it was given unless the type is [js] and the
    obfuscator answered, or the type is [css] and clean-css answered without
    errors; any other type passes through without a minifier being called. *)
Theorem attemptMinify_fails_open type code (options : Options JsOptions CssOptions) :
  exists t out,
    attemptMinify type code options = (t, Ok out) /\
    ((t = [] /\ out = code /\ type <> "js" /\ type <> "css") \/
     (t = [EvMinifyJs code] /\ type = "js" /\
      (obfuscate code (opt_js options) = Ok out \/
       out = code /\ exists e, obfuscate code (opt_js options) = Err e)) \/
     (t = [EvMinifyCss code] /\ type = "css" /\
      ((exists r, cleanCss code (opt_css options) = Ok r /\
                  errors r = [] /\ styles r = out) \/
       out = code))).
Proof.
  unfold attemptMinify, minifyJs, minifyCss.
  destruct (String.eqb_spec type "js") as [Hjs|Hjs].
  - destruct (obfuscate code (opt_js options)) as [out|e] eqn:Ho.
    + exists [EvMinifyJs code], out. split; [reflexivity|]. right; left. auto.
    + exists [EvMinifyJs code], code. split; [reflexivity|]. right; left.
      split; [reflexivity|]. split; [exact Hjs|]. right. split; [reflexivity|]. now exists e.
  - destruct (String.eqb_spec type "css") as [Hcss|Hcss].
    + destruct (cleanCss code (opt_css options)) as [[st [|err errs]]|e] eqn:Hc.
      * exists [EvMinifyCss code], st. split; [reflexivity|]. right; right.
        split; [reflexivity|]. split; [exact Hcss|]. left.
        exists {| styles := st; errors := [] |}. auto.
      * exists [EvMinifyCss code], code. split; [reflexivity|]. right; right. auto.
      * exists [EvMinifyCss code], code. split; [reflexivity|]. right; right. auto.
    + exists [], code. split; [reflexivity|]. left. auto.
Qed.

(** X2. When clean-css reports an error, its output is discarded even though
    it produced one: [attemptMinify] hands back the unminified code. *)
Theorem css_errors_keep_original code (options : Options JsOptions CssOptions) r e es :
  cleanCss code (opt_css options) = Ok r ->
  errors r = e :: es ->
  minifyCss code (opt_css options) = ([EvMinifyCss code], Err (Failure e)) /\
  attemptMinify "css" code options = ([EvMinifyCss code], Ok code).
Proof.
  intros Hc He. unfold attemptMinify, minifyCss. rewrite Hc, He. split; reflexivity.
Qed.

(** X5. A content in which the lower-case word [url] does not occur has no
    reference: it comes back unchanged and nothing is read or fetched. *)
Theorem no_reference_no_inlining code source :
  Js.contains "url" code = false ->
  encodeExternalResources world code source = ([], Ok code).
Proof.
  intros H. unfold encodeExternalResources.
  change url_re_g with
    ([] ++ Js.lits "url" ++
     [Js.Star Js.is_ws; Js.Lit "("; Js.Open; Js.Star Js.is_ws; Js.Opt Js.squote;
      Js.Opt Js.dquote; Js.Star Js.is_ref_char; Js.Opt Js.squote; Js.Opt Js.dquote;
      Js.Star Js.is_ws; Js.Close; Js.Lit ")"])%list.
  now rewrite (match_all_needs _ _ _ _ 0 H).
Qed.

(** X10. Any value of [NODE_ENV] that has [production] somewhere in it turns
    minification on, whatever [options.minify] says. *)
Theorem production_anywhere (options : Options JsOptions CssOptions) before after :
  NODE_ENV world = Some (before ++ "production" ++ after) ->
  isProd world options = true.
Proof.
  intros H. unfold isProd. rewrite H, contains_app. apply orb_true_r.
Qed.

(** X13. Resolving one location never rejects and touches nothing but the
    location itself: no effect for a literal, one fetch of the source when it
    is a URL, one read of the source otherwise. *)
Theorem parseFile_effects source target reqOptions :
  exists text,
    parseFile world source target reqOptions =
    ((if isUrl source then [EvGet source]
      else if isInvalidPath source then []
      else [EvRead source]),
     Ok text).
Proof.
  destruct (isUrl source) eqn:Hu.
  - rewrite (parseFile_url world _ _ _ Hu).
    destruct (http_get world source reqOptions); eauto.
  - destruct (isInvalidPath source) eqn:Hp.
    + rewrite (parseFile_literal world _ _ _ Hu Hp). eauto.
    + rewrite (parseFile_path world _ _ _ Hu Hp).
      destruct (fs_read world source); eauto.
Qed.

End PackagerMore.

Lemma minified_app (t t' : list Event) :
  minified (t ++ t') = (minified t ++ minified t')%list.
Proof.
  induction t as [|e t IH]; simpl; [reflexivity|].
  destruct e; simpl; rewrite ?IH; reflexivity.
Qed.

Lemma forallb_weaken {A} (P Q : A -> bool) (l : list A) :
  (forall x, P x = true -> Q x = true) -> forallb P l = true -> forallb Q l = true.
Proof.
  intros HPQ. induction l as [|x l IH]; [reflexivity|].
  cbn [forallb]. intros H. apply andb_prop in H as [Hx Hl].
  now rewrite (HPQ x Hx), (IH Hl).
Qed.

Section PackagerEntries.

Context {JsOptions CssOptions ReqOptions : Type}.
Context {libs : Collaborators JsOptions CssOptions ReqOptions}.
Variable world : World ReqOptions.

Lemma each_match_data source matches :
  forall code,
  Forall (fun m => exists i len from to,
            Js.search url_re m 0 = Some (i, len, Some (from, to)) /\
            is_data (Js.trim (substring (i + from) (to - from) m)) = true)
    matches ->
  each_match world source matches code = ([], (code, Ok tt)).
Proof.
  induction matches as [|m rest IH]; intros code Hall; [reflexivity|].
  inversion Hall as [|m0 rest0 (i & len & from & to & Hs & Hd) Hrest]; subst.
  cbn [each_match]. unfold inline_match. rewrite Hs, Hd.
  now rewrite (IH code Hrest).
Qed.

(** X6. A content all of whose references are data URIs comes back
    unchanged, and nothing is read or fetched. *)
Theorem data_references_left_alone code source :
  Forall (fun m => exists i len from to,
            Js.search url_re m 0 = Some (i, len, Some (from, to)) /\
            is_data (Js.trim (substring (i + from) (to - from) m)) = true)
    (Js.match_all url_re_g code 0) ->
  encodeExternalResources world code source = ([], Ok code).
Proof.
  intros Hall. rewrite encodeExternalResources_run.
  now rewrite (each_match_data source _ code Hall).
Qed.

Lemma referenced_one source url :
  List.length (fst (referenced world source url)) <= 1.
Proof.
  unfold referenced, downloadFile, readFile.
  destruct (is_http url); [cbn; lia|]. destruct source; cbn; lia.
Qed.

Lemma inline_match_one source match_ code :
  List.length (fst (inline_match world source match_ code)) <= 1.
Proof.
  unfold inline_match.
  destruct (Js.search url_re match_ 0) as [[[i len] [[from to]|]]|]; try (cbn; lia).
  destruct (is_data _); [cbn; lia|].
  pose proof (referenced_one source
    (Js.trim (substring (i + from) (to - from) match_))) as Hq.
  destruct (referenced world source _) as [t [file|e]]; cbn [fst] in Hq.
  - destruct (replace code match_ file); exact Hq.
  - exact Hq.
Qed.

Lemma each_match_bounded source matches :
  forall code,
  List.length (fst (each_match world source matches code)) <= List.length matches.
Proof.
  induction matches as [|m rest IH]; intros code; [cbn; lia|].
  cbn [each_match]. pose proof (inline_match_one source m code) as H1.
  destruct (inline_match world source m code) as [t [code' [[]|e]]]; cbn [fst] in H1.
  - specialize (IH code').
    destruct (each_match world source rest code') as [t' r]. cbn [fst] in *.
    rewrite length_app. cbn [List.length]. lia.
  - cbn [fst List.length]. lia.
Qed.

(** X7. Inlining reads or fetches at most once per match of the reference
    pattern: nothing is retried, and nothing is looked up that no match
    names. *)
Theorem inlining_effects_bounded code source :
  List.length (fst (encodeExternalResources world code source)) <=
  List.length (Js.match_all url_re_g code 0).
Proof.
  rewrite encodeExternalResources_run. cbn [fst]. apply each_match_bounded.
Qed.

(** X8. An entry whose extension is [js] is never scanned for references: its
    only reads and fetches are those of its resolution, followed by minifier
    calls at most and by its write.  The extension is that of the identifier
    for a single source and that of the destination for a group, so a group
    bundled into a [js] destination is not inlined whatever its members
    are. *)
Theorem script_entries_not_inlined target (options : Options JsOptions CssOptions)
    reqOptions source :
  match source with
  | Single source => Js.last_part (Js.split_dot source)
  | Group _ => Js.last_part (Js.split_dot (path target))
  end = "js" ->
  exists tm out,
    forallb is_minifier tm = true /\
    loopFile world target options reqOptions source =
      ((fst (processSource world source target reqOptions) ++ tm ++
        [EvWrite (out ++ Js.LF)])%list, Ok tt).
Proof.
  intros Hext.
  destruct (loopFile_stages world target options reqOptions source)
    as (tr & r & ti & inlined & tm & out & Hp & Hi & Hm & Hq & Hqm & Hrun).
  destruct (processSource_fulfils world source target reqOptions)
    as (tr' & r' & Hp' & _ & _ & Hx).
  rewrite Hp in Hp'. injection Hp' as <- <-.
  rewrite Hext in Hx. rewrite Hx in Hi. cbn in Hi. injection Hi as <- <-.
  rewrite Hp. cbn [fst].
  destruct (isProd world options && minify r).
  - exists tm, out. split; [exact Hqm|exact Hrun].
  - exists [], (code (cleanseResults r)). split; [reflexivity|exact Hrun].
Qed.

Lemma attemptMinify_other type code (options : Options JsOptions CssOptions) :
  type <> "js" -> type <> "css" ->
  attemptMinify type code options = ([], Ok code).
Proof.
  intros Hjs Hcss. unfold attemptMinify.
  destruct (String.eqb_spec type "js"); [contradiction|].
  destruct (String.eqb_spec type "css"); [contradiction|]. reflexivity.
Qed.

(** X9. An entry whose extension is neither [js] nor [css] is never handed to
    a minifier, whatever the options and the environment say: a URL with a
    query string after its extension, or a source without any dot, is written
    unminified. *)
Theorem other_extensions_never_minified target (options : Options JsOptions CssOptions)
    reqOptions source :
  match source with
  | Single source => Js.last_part (Js.split_dot source)
  | Group _ => Js.last_part (Js.split_dot (path target))
  end <> "js" ->
  match source with
  | Single source => Js.last_part (Js.split_dot source)
  | Group _ => Js.last_part (Js.split_dot (path target))
  end <> "css" ->
  minified (fst (loopFile world target options reqOptions source)) = [].
Proof.
  intros Hjs Hcss.
  destruct (loopFile_stages world target options reqOptions source)
    as (tr & r & ti & inlined & tm & out & Hp & Hi & Hm & Hq & Hqm & Hrun).
  destruct (processSource_fulfils world source target reqOptions)
    as (tr' & r' & Hp' & _ & _ & Hx).
  rewrite Hp in Hp'. injection Hp' as <- <-.
  rewrite <- Hx in Hjs, Hcss.
  rewrite (attemptMinify_other _ _ _ Hjs Hcss) in Hm. injection Hm as <- <-.
  rewrite Hrun.
  destruct (isProd world options && minify r); cbn [fst];
    rewrite ?app_nil_l, app_assoc, minified_app, (fetches_minified _ Hq); reflexivity.
Qed.

(** X12. A URL that the path check rejects is still fetched, not taken as
    literal text, but its unit is flagged ineligible: what was fetched is
    never handed to a minifier. *)
Theorem url_failing_path_check source target reqOptions buffer
    (options : Options JsOptions CssOptions) :
  isUrl source = true ->
  isInvalidPath source = true ->
  http_get world source reqOptions = Ok buffer ->
  processSource world (Single source) target reqOptions =
    ([EvGet source],
     Ok {| code := toString_utf8 buffer; minify := false;
           ext := Js.last_part (Js.split_dot source) |}) /\
  minified (fst (loopFile world target options reqOptions (Single source))) = [].
Proof.
  intros Hu Hp Hget.
  assert (Hrun : processSource world (Single source) target reqOptions =
    ([EvGet source],
     Ok {| code := toString_utf8 buffer; minify := false;
           ext := Js.last_part (Js.split_dot source) |})).
  { unfold processSource. rewrite (parseFile_url world _ _ _ Hu), Hget.
    cbn [then_ resolve app]. now rewrite Hp. }
  split; [exact Hrun|].
  destruct (loopFile_stages world target options reqOptions (Single source))
    as (tr & r & ti & inlined & tm & out & Hp' & _ & _ & Hq & _ & Hl).
  rewrite Hrun in Hp'. injection Hp' as <- <-.
  rewrite Hl. cbn [minify]. rewrite andb_false_r. cbn [fst].
  now rewrite app_assoc, minified_app, (fetches_minified _ Hq).
Qed.

Lemma loopFiles_run (sources : list Source) target
    (options : Options JsOptions CssOptions) reqOptions :
  loopFiles world sources target options reqOptions =
  (fst (loopFiles world sources target options reqOptions), Ok tt).
Proof.
  destruct (loopFiles_segments world sources target options reqOptions) as (segs & _ & ->).
  reflexivity.
Qed.

(** X14. A pass over two lists one after the other does what a pass over the
    first followed by a pass over the second does: no entry depends on the
    entries before it. *)
Theorem pass_composes (a b : list Source) target
    (options : Options JsOptions CssOptions) reqOptions :
  loopFiles world (a ++ b) target options reqOptions =
  ((fst (loopFiles world a target options reqOptions) ++
    fst (loopFiles world b target options reqOptions))%list, Ok tt).
Proof.
  induction a as [|source a IH].
  - cbn [app]. apply loopFiles_run.
  - destruct (loopFile_shape world target options reqOptions source) as (pre & out & Hl & _).
    unfold loopFiles in *. cbn [app each].
    rewrite (then_ok _ _ _ _ _ _ Hl IH).
    rewrite (then_ok _ _ _ _ _ _ Hl (loopFiles_run a target options reqOptions)).
    cbn [fst]. now rewrite app_assoc.
Qed.

Lemma loopFile_events target (options : Options JsOptions CssOptions) reqOptions source :
  forallb (fun e => is_fetch e || is_minifier e ||
                    match e with EvWrite _ => true | _ => false end)
    (fst (loopFile world target options reqOptions source)) = true.
Proof.
  destruct (loopFile_stages world target options reqOptions source)
    as (tr & r & ti & inlined & tm & out & _ & _ & _ & Hq & Hqm & Hrun).
  rewrite Hrun.
  assert (Hf : forallb (fun e => is_fetch e || is_minifier e ||
                    match e with EvWrite _ => true | _ => false end) (tr ++ ti) = true).
  { eapply forallb_weaken; [|exact Hq]. intros x ->. reflexivity. }
  assert (Hm : forallb (fun e => is_fetch e || is_minifier e ||
                    match e with EvWrite _ => true | _ => false end) tm = true).
  { eapply forallb_weaken; [|exact Hqm]. intros x ->. now rewrite orb_true_r. }
  destruct (isProd world options && minify r); cbn [fst];
    rewrite app_assoc, forallb_app, Hf, ?forallb_app, ?Hm; reflexivity.
Qed.

(** X11. [bundle] always fulfils.  It opens the destination before anything
    else, ends it after the last write, and installs the watcher last and
    only in watch mode; in between there are reads, fetches, minifier calls
    and one write per source. *)
Theorem bundle_brackets_the_pass sources destination
    (options : option (Options JsOptions CssOptions)) reqOptions :
  exists t,
    bundle world sources destination options reqOptions =
      ((EvOpen destination :: t ++ EvEnd ::
          (if opt_watch (or_default options) then [EvWatch] else []))%list, Ok tt) /\
    forallb (fun e => is_fetch e || is_minifier e ||
                      match e with EvWrite _ => true | _ => false end) t = true /\
    List.length (written t) = List.length sources.
Proof.
  destruct (bundle_run world sources destination options reqOptions) as (t & Hl & Hb).
  exists t. split; [|split].
  - rewrite Hb. now destruct (opt_watch (or_default options)).
  - clear Hb. revert t Hl. unfold loopFiles.
    induction sources as [|source sources IH]; intros t Hl.
    + cbn in Hl. now injection Hl as <-.
    + cbn [each] in Hl.
      destruct (loopFile_shape world {| path := destination |} (or_default options)
                  reqOptions source) as (pre & out & Hs & _).
      pose proof (loopFile_events {| path := destination |} (or_default options)
                    reqOptions source) as He.
      rewrite Hs in He. cbn [fst] in He.
      pose proof (loopFiles_run sources {| path := destination |} (or_default options)
                    reqOptions) as Hr.
      unfold loopFiles in Hr.
      rewrite (then_ok _ _ _ _ _ _ Hs Hr) in Hl. injection Hl as <-.
      rewrite forallb_app, He. apply (IH _ Hr).
  - destruct (loopFiles_segments world sources {| path := destination |}
                (or_default options) reqOptions) as (segs & Hall & Hrun).
    rewrite Hrun in Hl. injection Hl as <-.
    erewrite written_segments by exact Hall.
    rewrite length_map. symmetry. eapply Forall2_length. exact Hall.
Qed.

End PackagerEntries.

(** ** Further runs on the concrete environments *)

Lemma css_errors_keep_original_witness :
  attemptMinify (libs := Online.libs) "css" " a { color : red } " Fixture.plain =
  ([EvMinifyCss " a { color : red } "], Ok " a { color : red } ").
Proof.
  apply (css_errors_keep_original (libs := Online.libs) " a { color : red } " Fixture.plain
           {| styles := "a { color : red }"; errors := ["Ignoring local @import"] |}
           "Ignoring local @import" []); reflexivity.
Defined.

(** The pattern is case sensitive: an upper-case reference is not seen. *)
Lemma no_reference_no_inlining_witness :
  encodeExternalResources (libs := Fixture.libs) Fixture.world
    "A{BACKGROUND:URL(a.png)}" (Single "quoted.css") =
  ([], Ok "A{BACKGROUND:URL(a.png)}").
Proof.
  apply (no_reference_no_inlining (libs := Fixture.libs) Fixture.world
           "A{BACKGROUND:URL(a.png)}" (Single "quoted.css")).
  reflexivity.
Defined.

Lemma production_anywhere_witness :
  isProd Online.world Fixture.plain = true.
Proof.
  apply (production_anywhere Online.world Fixture.plain "pre" EmptyString).
  reflexivity.
Defined.

Lemma data_references_left_alone_witness :
  encodeExternalResources (libs := Fixture.libs) Fixture.world
    "a{background:url(data:image/gif;base64,R0lGOA==)} b{background:url( 'data:,x' )}"
    (Single "quoted.css") =
  ([], Ok "a{background:url(data:image/gif;base64,R0lGOA==)} b{background:url( 'data:,x' )}").
Proof.
  apply (data_references_left_alone (libs := Fixture.libs) Fixture.world
           "a{background:url(data:image/gif;base64,R0lGOA==)} b{background:url( 'data:,x' )}"
           (Single "quoted.css")).
  assert (Hm : Js.match_all url_re_g
                 "a{background:url(data:image/gif;base64,R0lGOA==)} b{background:url( 'data:,x' )}" 0 =
               ["url(data:image/gif;base64,R0lGOA==)"; "url( 'data:,x' )"])
    by (vm_compute; reflexivity).
  rewrite Hm.
  constructor; [|constructor; [|constructor]].
  - exists 0, 35, 4, 34. split; vm_compute; reflexivity.
  - exists 0, 16, 6, 13. split; vm_compute; reflexivity.
Defined.

Lemma script_entries_not_inlined_witness :
  exists tm out,
    forallb is_minifier tm = true /\
    loopFile (libs := Fixture.libs) Fixture.world {| path := "out.js" |} Fixture.plain None
      (Group ["quoted.css"]) =
      ((fst (processSource (libs := Fixture.libs) Fixture.world (Group ["quoted.css"])
               {| path := "out.js" |} None) ++ tm ++ [EvWrite (out ++ Js.LF)])%list, Ok tt).
Proof.
  apply (script_entries_not_inlined (libs := Fixture.libs) Fixture.world
           {| path := "out.js" |} Fixture.plain None (Group ["quoted.css"])).
  reflexivity.
Defined.

Lemma other_extensions_never_minified_witness :
  minified (fst (loopFile (libs := Fixture.libs) Fixture.world {| path := "out.js" |}
                   Fixture.minifying None (Single "a.js?v=2"))) = [].
Proof.
  apply (other_extensions_never_minified (libs := Fixture.libs) Fixture.world
           {| path := "out.js" |} Fixture.minifying None (Single "a.js?v=2"));
    vm_compute; discriminate.
Defined.

Lemma url_failing_path_check_witness :
  processSource (libs := Online.libs) Online.world (Single "http://x.org/lib.js?v=2")
    {| path := "out.js" |} None =
    ([EvGet "http://x.org/lib.js?v=2"],
     Ok {| code := "var lib = 0;"; minify := false; ext := "js?v=2" |}) /\
  minified (fst (loopFile (libs := Online.libs) Online.world {| path := "out.js" |}
                   Fixture.minifying None (Single "http://x.org/lib.js?v=2"))) = [].
Proof.
  apply (url_failing_path_check (libs := Online.libs) Online.world
           "http://x.org/lib.js?v=2" {| path := "out.js" |} None
           (list_byte_of_string "var lib = 0;") Fixture.minifying); reflexivity.
Defined.

(** ** Further facts about watch mode *)

Lemma deliver_length gs :
  forall i, List.length (fst (Watch.deliver i gs)) = List.length gs.
Proof.
  induction gs as [|g gs IH]; intros i; [reflexivity|].
  cbn [Watch.deliver]. destruct (Watch._bundle i g) as [g' ps].
  specialize (IH (S i)). destruct (Watch.deliver (S i) gs) as [gs' ps'].
  cbn [fst List.length] in *. now rewrite IH.
Qed.

Lemma free_at_counts gs :
  forall i k,
  List.length (fst (Watch.free_at i k gs)) = List.length gs.
Proof.
  induction gs as [|g gs IH]; intros i k; [now destruct k|].
  destruct k as [|k]; cbn [Watch.free_at].
  - destruct (Watch.free i g) as [g' ps]. reflexivity.
  - specialize (IH i k). destruct (Watch.free_at i k gs) as [gs' ps].
    cbn [fst List.length] in *. now rewrite IH.
Qed.

Lemma remove_nth_length {A} (l : list A) :
  forall k x, nth_error l k = Some x ->
  S (List.length (Watch.remove_nth k l)) = List.length l.
Proof.
  induction l as [|y l IH]; intros [|k] x H; try discriminate.
  - reflexivity.
  - cbn [Watch.remove_nth List.length]. f_equal. eapply IH, H.
Qed.

Lemma accumulate_step r s e :
  List.length (Watch.gates s) + Watch.in_flight s = Watch.started s ->
  List.length (Watch.gates (Watch.step r s e)) + Watch.in_flight (Watch.step r s e) =
  Watch.started (Watch.step r s e).
Proof.
  unfold Watch.in_flight. intros H. destruct e as [|k]; cbn [Watch.step].
  - pose proof (deliver_length (Watch.gates s) 0) as Hd.
    destruct (Watch.deliver 0 (Watch.gates s)) as [gs ps]. cbn [fst] in Hd.
    cbn [Watch.gates Watch.passes Watch.started]. rewrite length_app. lia.
  - destruct (nth_error (Watch.passes s) k) as [owner|] eqn:Hk; [|exact H].
    pose proof (remove_nth_length _ _ _ Hk) as Hr.
    assert (Hplain :
      List.length (Watch.gates s ++ [{| Watch.running := 0; Watch.waiting := 0 |}]) +
      List.length (Watch.remove_nth k (Watch.passes s)) = Watch.started s).
    { rewrite length_app. cbn [List.length]. lia. }
    destruct r; [exact Hplain|]. destruct owner as [i|]; [|exact Hplain].
    pose proof (free_at_counts
      (Watch.gates s ++ [{| Watch.running := 0; Watch.waiting := 0 |}]) i i) as Hf.
    destruct (Watch.free_at i i _) as [gs ps]. cbn [fst] in Hf.
    cbn [Watch.gates Watch.passes Watch.started]. rewrite length_app. lia.
Qed.

(** X15. Watchers pile up: whatever the events and however the gate is
    released, every pass that was started is either in flight or has left a
    watcher behind, so after k completed passes k watchers are listening. *)
Theorem watchers_accumulate r es :
  List.length (Watch.gates (Watch.run r Watch.init es)) +
  Watch.in_flight (Watch.run r Watch.init es) =
  Watch.started (Watch.run r Watch.init es).
Proof.
  assert (H0 : List.length (Watch.gates Watch.init) + Watch.in_flight Watch.init =
               Watch.started Watch.init) by reflexivity.
  revert H0. generalize Watch.init. unfold Watch.run.
  induction es as [|e es IH]; intros s Hs; [exact Hs|].
  cbn [fold_left]. apply IH, accumulate_step, Hs.
Qed.

Lemma settled_run es : Watch.settled (Watch.run Watch.OnResolve Watch.init es).
Proof.
  assert (H0 : Watch.settled Watch.init).
  { left. split; [exists None; reflexivity|constructor]. }
  revert H0. generalize Watch.init. unfold Watch.run.
  induction es as [|e es IH]; intros s Hs; [exact Hs|].
  cbn [fold_left]. apply IH, settled_step, Hs.
Qed.

(** X16. With gates that are released by [resolve] only, after any sequence
    of events: no pass or one pass is in flight; an event while none is in
    flight starts exactly one pass; an event while one is in flight starts
    none. *)
Theorem resolve_gate_serialises es :
  match Watch.in_flight (Watch.run Watch.OnResolve Watch.init es) with
  | 0 =>
      Watch.started (Watch.run Watch.OnResolve Watch.init (es ++ [Watch.Change])) =
        S (Watch.started (Watch.run Watch.OnResolve Watch.init es)) /\
      Watch.in_flight (Watch.run Watch.OnResolve Watch.init (es ++ [Watch.Change])) = 1
  | n =>
      n = 1 /\
      Watch.started (Watch.run Watch.OnResolve Watch.init (es ++ [Watch.Change])) =
        Watch.started (Watch.run Watch.OnResolve Watch.init es) /\
      Watch.in_flight (Watch.run Watch.OnResolve Watch.init (es ++ [Watch.Change])) = 1
  end.
Proof.
  rewrite run_app. pose proof (settled_run es) as Hs.
  destruct (Watch.run Watch.OnResolve Watch.init es) as [gates passes started].
  unfold Watch.in_flight. cbn [Watch.run fold_left Watch.step Watch.gates Watch.passes
    Watch.started].
  destruct Hs as [[[owner Hp] Hb]|[Hp (gs & g & Hg & Hb & Hfree)]];
    cbn [Watch.passes Watch.gates] in *; subst.
  - destruct (deliver_busy gates 0 Hb) as (gs' & Hd & _ & _). rewrite Hd.
    cbn. repeat split. lia.
  - destruct (deliver_newest gs g 0 Hb Hfree) as (gs' & Hd & _). rewrite Hd.
    cbn. split; [lia|reflexivity].
Qed.

(** ** One reference, rewritten *)

Section OneReference.

Context {JsOptions CssOptions ReqOptions : Type}.
Context {libs : Collaborators JsOptions CssOptions ReqOptions}.
Variable world : World ReqOptions.

(** X17. For a single source, a match whose reference is neither a data URI
    nor remote, whose file (looked up next to the source) can be read and is
    classified with a media type free of [$], and whose text occurs first at
    its own place, costs one read and is replaced there by
    [url('data:<mime>;charset=utf-8;base64,<base64 of the file>')]; the text
    before and after it is untouched. *)
Theorem reference_rewritten_in_place source pre match_ post i len from to file mime :
  Js.search url_re match_ 0 = Some (i, len, Some (from, to)) ->
  is_data (Js.trim (substring (i + from) (to - from) match_)) = false ->
  is_http (Js.trim (substring (i + from) (to - from) match_)) = false ->
  fs_read world
    (path_join (path_dirname source)
       (Js.trim (substring (i + from) (to - from) match_))) = Ok file ->
  sniff file = Some mime ->
  Js.no_dollar mime = true ->
  Js.index_of match_ (pre ++ match_ ++ post) 0 = Some (String.length pre) ->
  inline_match world (Single source) match_ (pre ++ match_ ++ post) =
  ([EvRead (path_join (path_dirname source)
              (Js.trim (substring (i + from) (to - from) match_)))],
   (pre ++ "url('data:" ++ mime ++ ";charset=utf-8;base64," ++ Js.base64 file ++ "')" ++ post,
    Ok tt)).
Proof.
  intros Hs Hd Hh Hread Hsniff Hm Hi.
  unfold inline_match. rewrite Hs, Hd.
  unfold referenced, readFile. rewrite Hh, Hread.
  now rewrite (replace_reference pre match_ post file mime Hi Hsniff Hm).
Qed.

End OneReference.

Lemma reference_rewritten_in_place_witness :
  inline_match (libs := Fixture.libs) Fixture.world (Single "quoted.css") "url('a.png')"
    "a{background:url('a.png')}" =
  ([EvRead "a.png"],
   ("a{background:url('data:image/png;charset=utf-8;base64,iVBORw0KGgo=')}", Ok tt)).
Proof.
  apply (reference_rewritten_in_place (libs := Fixture.libs) Fixture.world
           "quoted.css" "a{background:" "url('a.png')" "}" 0 12 5 10
           Fixture.png "image/png"); vm_compute; reflexivity.
Defined.
